(** * pratt_demo: a Pratt parser emitting stack bytecode, and its interpreter

    Shallow embedding of [src/main.py].  The Python program scans a string
    into tokens, parses the tokens by precedence climbing into a postfix
    bytecode list, and runs the bytecode on an operand stack.

    Conventions of the embedding.
    - Python [int] is [Z]; a Python [str] is a [string] whose characters are
      the code points 0..255.
    - A Python list is a [list] in the same order ([append] adds at the
      end, [pop] removes the last element).
    - An exception is a value of [PyError]; a failing operation returns the
      object state it leaves behind together with the error.
    - Standard output is the list of lines written; a [print] raises only
      when [str] of an integer does, over 4300 digits.
    - The mutually recursive parser methods take a recursion budget
      ([fuel]); [parse_precedence_total] shows that the budget used by the
      entry point is always sufficient. *)

From Stdlib Require Import ZArith List String Ascii Bool Lia DecimalString.
From Stdlib Require Import DecimalPos DecimalZ Permutation.
Import ListNotations.
Open Scope Z_scope.

(** ** Python built-ins used by the program *)

(** Exceptions the program can raise.  The two [TypeError]s come from
    calling the [None] stored in a jump-table slot; they are told apart by
    the call site. *)
Inductive PyError : Type :=
| UnrecognizedCharacter (c : ascii) (* ValueError("Unresolved token c"), simple_scan *)
| InvalidNumberLiteral              (* ValueError raised by int(lexeme), number *)
| NoPrefixParselet                  (* TypeError: jump() on a None prefix slot *)
| NoInfixParselet                   (* TypeError: jump() on a None infix slot *)
| TokenIndexError                   (* IndexError: self.tokens[i], i out of range *)
| StackUnderflow                    (* IndexError: pop from empty list *)
| UnprintableInteger                (* ValueError: str of an int over the digit limit *)
| UnhandledInstruction.             (* NotImplementedError, interpret *)

Definition code (c : ascii) : Z := Z.of_N (N_of_ascii c).

(** [str.isspace] on a one-character string. *)
Definition isspace (c : ascii) : bool :=
  let n := code c in
  ((9 <=? n) && (n <=? 13)) || ((28 <=? n) && (n <=? 32))
  || (n =? 133) || (n =? 160).

(** [str.isdigit] on a one-character string: the ASCII digits and the
    superscripts one, two and three. *)
Definition isdigit (c : ascii) : bool :=
  let n := code c in
  ((48 <=? n) && (n <=? 57)) || (n =? 178) || (n =? 179) || (n =? 185).

(** Value of a decimal digit accepted by [int]. *)
Definition decimal_value (c : ascii) : option Z :=
  let n := code c in
  if (48 <=? n) && (n <=? 57) then Some (n - 48) else None.

(** Whitespace that [int] strips around a literal. *)
Definition int_space (c : ascii) : bool :=
  let n := code c in
  ((9 <=? n) && (n <=? 13)) || (n =? 32) || (n =? 133) || (n =? 160).

Fixpoint lstrip (cs : list ascii) : list ascii :=
  match cs with
  | c :: cs' => if int_space c then lstrip cs' else cs
  | [] => []
  end.

Definition strip (cs : list ascii) : list ascii :=
  rev (lstrip (rev (lstrip cs))).

(** Digits of a literal, single underscores allowed between two digits.
    [acc] is the value so far, [count] the number of digits seen and
    [after_digit] tells whether the previous character was a digit. *)
Fixpoint int_digits (acc count : Z) (after_digit : bool) (cs : list ascii)
  : option (Z * Z) :=
  match cs with
  | [] => if after_digit then Some (acc, count) else None
  | c :: cs' =>
      match decimal_value c with
      | Some d => int_digits (10 * acc + d) (count + 1) true cs'
      | None =>
          if (code c =? 95) && after_digit
          then int_digits acc count false cs'
          else None
      end
  end.

(** Default of [sys.get_int_max_str_digits()]. *)
Definition int_max_str_digits : Z := 4300.

Definition int_unsigned (cs : list ascii) : option Z :=
  match int_digits 0 0 false cs with
  | Some (v, count) => if count <=? int_max_str_digits then Some v else None
  | None => None
  end.

(** [int(s)] in base 10; [None] stands for [ValueError]. *)
Definition py_int (s : string) : option Z :=
  match strip (list_ascii_of_string s) with
  | c :: cs =>
      if code c =? 43 then int_unsigned cs
      else if code c =? 45 then option_map Z.opp (int_unsigned cs)
      else int_unsigned (c :: cs)
  | [] => None
  end.

(** [l[i]] for a Python list: a negative index counts from the end;
    [None] stands for [IndexError]. *)
Definition py_index {A : Type} (l : list A) (i : Z) : option A :=
  let n := Z.of_nat (List.length l) in
  if (0 <=? i) && (i <? n) then nth_error l (Z.to_nat i)
  else if (- n <=? i) && (i <? 0) then nth_error l (Z.to_nat (n + i))
  else None.

(** [l.pop()]: the last element and the list without it; [None] stands for
    [IndexError]. *)
Fixpoint pop {A : Type} (l : list A) : option (A * list A) :=
  match l with
  | [] => None
  | x :: l' =>
      match pop l' with
      | None => Some (x, [])
      | Some (y, r) => Some (y, x :: r)
      end
  end.

(** The least natural number with more than [int_max_str_digits] digits. *)
Definition int_str_bound : Z := Eval vm_compute in 10 ^ int_max_str_digits.

(** [str(n)] succeeds: [n] has at most [int_max_str_digits] digits. *)
Definition printable (n : Z) : bool := Z.abs n <? int_str_bound.

(** [str(n)] for an integer, also inside an f-string; [None] stands for
    the [ValueError] raised for an integer over the digit limit. *)
Definition py_str (n : Z) : option string :=
  if printable n then Some (NilZero.string_of_int (Z.to_int n)) else None.

(** ** Token model *)

Inductive TokenKind : Type := PLUS | MULTIPLY | NUMBER.

(** [TokenKind.value]: the precedence of the kind. *)
Definition value (k : TokenKind) : Z :=
  match k with
  | PLUS => 0
  | MULTIPLY => 1
  | NUMBER => 2
  end.

(** [TokenKind._member_names_], each name resolved to its member. *)
Definition member_names : list TokenKind := [PLUS; MULTIPLY; NUMBER].

Definition increase (self : TokenKind) : TokenKind :=
  let v := value self + 1 in
  if v >=? value NUMBER then NUMBER
  else nth (Z.to_nat v) member_names NUMBER.

Record Token : Type := mkToken { lexeme : string; kind : TokenKind }.

(** ** Scanner *)

(** The [for] loop of [simple_scan]; [tokens] is the list built so far. *)
Fixpoint scan_loop (tokens : list Token) (source : string)
  : PyError + list Token :=
  match source with
  | EmptyString => inr tokens
  | String char rest =>
      if isspace char then scan_loop tokens rest
      else if isdigit char
        then scan_loop (tokens ++ [mkToken (String char EmptyString) NUMBER]) rest
      else if code char =? 43
        then scan_loop (tokens ++ [mkToken (String char EmptyString) PLUS]) rest
      else if code char =? 42
        then scan_loop (tokens ++ [mkToken (String char EmptyString) MULTIPLY]) rest
      else inl (UnrecognizedCharacter char)
  end.

Definition simple_scan (source : string) : PyError + list Token :=
  scan_loop [] source.

(** ** Bytecode *)

Inductive BytecodeInstruction : Type :=
| ConstantInstruction (v : Z)
| AddInstruction
| MultiplyInstruction.

(** [__str__] of the three instruction classes; [None] when the f-string
    of [ConstantInstruction] raises. *)
Definition instruction_str (i : BytecodeInstruction) : option string :=
  match i with
  | ConstantInstruction v => option_map (String.append "CONST ") (py_str v)
  | AddInstruction => Some "ADD"%string
  | MultiplyInstruction => Some "MUL"%string
  end.

(** ** Pratt parser *)

(** The parser object.  [reads] is an observation log and not a field of
    the Python object: every subscript [self.tokens[i]] appends the pair
    of [i] and the value of [self.current] at that moment.  The lines
    printed by [emit] are the renderings of [bytecode], in order. *)
Record PrattParser : Type := mkParser {
  tokens : list Token;
  current : Z;
  bytecode : list BytecodeInstruction;
  reads : list (Z * Z)
}.

(** The bound methods stored in the jump table. *)
Inductive Parselet : Type := number_method | binary_method.

(** [self.jumptable]: the (prefix, infix) pair of each kind. *)
Definition jumptable (k : TokenKind) : option Parselet * option Parselet :=
  match k with
  | NUMBER => (Some number_method, None)
  | PLUS => (None, Some binary_method)
  | MULTIPLY => (None, Some binary_method)
  end.

(** [PrattParser(tokens)]. *)
Definition PrattParser_init (toks : list Token) : PrattParser :=
  mkParser toks 0 [] [].

Definition len_tokens (self : PrattParser) : Z :=
  Z.of_nat (List.length (tokens self)).

Definition set_current (self : PrattParser) (c : Z) : PrattParser :=
  mkParser (tokens self) c (bytecode self) (reads self).

(** [self.tokens[i]]: the token, if any, and the parser with the read
    recorded. *)
Definition subscript (self : PrattParser) (i : Z)
  : option Token * PrattParser :=
  (py_index (tokens self) i,
   mkParser (tokens self) (current self) (bytecode self)
            (reads self ++ [(i, current self)])).

(** [emit] appends and prints.  The instructions the parser emits are
    [Add], [Multiply] and the constants [number] makes from [int], whose
    text always exists ([py_int_printable]): this print does not raise. *)
Definition emit (instruction : BytecodeInstruction) (self : PrattParser)
  : PrattParser :=
  mkParser (tokens self) (current self) (bytecode self ++ [instruction])
           (reads self).

(** How a parser method ends: it returns, it raises, or the recursion
    budget of the model ran out. *)
Inductive Outcome : Type :=
| Returned (self : PrattParser)
| Raised (e : PyError) (self : PrattParser)
| OutOfFuel.

Definition number (self : PrattParser) : Outcome :=
  if current self >=? len_tokens self then Returned self
  else
    let self1 := set_current self (current self + 1) in
    match subscript self1 (current self1 - 1) with
    | (None, self2) => Raised TokenIndexError self2
    | (Some t, self2) =>
        match py_int (lexeme t) with
        | None => Raised InvalidNumberLiteral self2
        | Some v => Returned (emit (ConstantInstruction v) self2)
        end
    end.

(** [parse_precedence], its [while] loop ([infix_loop]) and [binary]. *)
Fixpoint parse_precedence (fuel : nat) (precedence : Z) (self : PrattParser)
  {struct fuel} : Outcome :=
  match fuel with
  | O => OutOfFuel
  | S fuel' =>
      if current self >=? len_tokens self then Returned self
      else
        match subscript self (current self) with
        | (None, self1) => Raised TokenIndexError self1
        | (Some start, self1) =>
            match fst (jumptable (kind start)) with
            | None => Raised NoPrefixParselet self1
            | Some jump =>
                match
                  match jump with
                  | number_method => number self1
                  | binary_method => binary fuel' self1
                  end
                with
                | Returned self2 => infix_loop fuel' precedence self2
                | stopped => stopped
                end
            end
        end
  end

with infix_loop (fuel : nat) (precedence : Z) (self : PrattParser)
  {struct fuel} : Outcome :=
  match fuel with
  | O => OutOfFuel
  | S fuel' =>
      if current self <? len_tokens self then
        match subscript self (current self) with
        | (None, self1) => Raised TokenIndexError self1
        | (Some t, self1) =>
            if precedence <=? value (kind t) then
              match subscript self1 (current self1) with
              | (None, self2) => Raised TokenIndexError self2
              | (Some t', self2) =>
                  match snd (jumptable (kind t')) with
                  | None => Raised NoInfixParselet self2
                  | Some jump =>
                      match
                        match jump with
                        | number_method => number self2
                        | binary_method => binary fuel' self2
                        end
                      with
                      | Returned self3 => infix_loop fuel' precedence self3
                      | stopped => stopped
                      end
                  end
              end
            else Returned self1
        end
      else Returned self
  end

with binary (fuel : nat) (self : PrattParser) {struct fuel} : Outcome :=
  match fuel with
  | O => OutOfFuel
  | S fuel' =>
      if current self >=? len_tokens self then Returned self
      else
        match subscript self (current self) with
        | (None, self1) => Raised TokenIndexError self1
        | (Some operator, self1) =>
            let self2 := set_current self1 (current self1 + 1) in
            match
              parse_precedence fuel' (value (increase (kind operator))) self2
            with
            | Returned self3 =>
                match kind operator with
                | MULTIPLY => Returned (emit MultiplyInstruction self3)
                | PLUS => Returned (emit AddInstruction self3)
                | NUMBER => Returned self3
                end
            | stopped => stopped
            end
        end
  end.

(** Recursion budget that suffices for a parser with [n] tokens ahead of
    the cursor. *)
Definition fuel_for (self : PrattParser) : nat :=
  2 * Z.to_nat (len_tokens self - current self) + 1.

(** [parser = PrattParser(tokens); parser.parse_precedence(0)]. *)
Definition parse (toks : list Token) : Outcome :=
  parse_precedence (fuel_for (PrattParser_init toks)) 0 (PrattParser_init toks).

(** ** Stack interpreter *)

(** One line printed by [interpret]: the instruction and the stack after
    it. *)
Definition Snapshot : Type := (BytecodeInstruction * list Z)%type.

(** The [isinstance] tests of [interpret], in the order of the source.
    [other_class] stands for an object of a class the program does not
    define, for which the loop has its final [else]; every value of
    [BytecodeInstruction] is an instance of one of the three classes. *)
Inductive InstructionClass : Type :=
| constant_class (v : Z)
| multiply_class
| add_class
| other_class.

Definition isinstance (instruction : BytecodeInstruction) : InstructionClass :=
  match instruction with
  | ConstantInstruction v => constant_class v
  | MultiplyInstruction => multiply_class
  | AddInstruction => add_class
  end.

(** The body of the [for] loop, up to the prints: the new stack, or the
    error with the stack at the moment of the failure. *)
Definition execute (instruction : BytecodeInstruction) (stack : list Z)
  : (PyError * list Z) + list Z :=
  match isinstance instruction with
  | constant_class v => inr (stack ++ [v])
  | multiply_class =>
      match pop stack with
      | None => inl (StackUnderflow, stack)
      | Some (b, stack1) =>
          match pop stack1 with
          | None => inl (StackUnderflow, stack1)
          | Some (a, stack2) => inr (stack2 ++ [a * b])
          end
      end
  | add_class =>
      match pop stack with
      | None => inl (StackUnderflow, stack)
      | Some (b, stack1) =>
          match pop stack1 with
          | None => inl (StackUnderflow, stack1)
          | Some (a, stack2) => inr (stack2 ++ [a + b])
          end
      end
  | other_class => inl (UnhandledInstruction, stack)
  end.

(** The text [print_stack] writes before its newline: each element in
    brackets; [None] when the f-string of an element raises. *)
Fixpoint stack_str (stack : list Z) : option string :=
  match stack with
  | [] => Some EmptyString
  | element :: rest =>
      match py_str element, stack_str rest with
      | Some e, Some r =>
          Some (String.append "[ " (String.append e (String.append " ]" r)))
      | _, _ => None
      end
  end.

(** The two prints that end the body of the loop: the instruction, a tab,
    the stack and a newline; [None] when one of them raises. *)
Definition line_str (s : Snapshot) : option string :=
  match instruction_str (fst s), stack_str (snd s) with
  | Some i, Some st =>
      Some (String.append i
              (String (ascii_of_nat 9)
                 (String.append st (String (ascii_of_nat 10) EmptyString))))
  | _, _ => None
  end.

(** [printed] holds the lines written in full, as snapshots; what a
    failing print had already written of its line is not kept. *)
Inductive Run : Type :=
| Finished (stack : list Z) (printed : list Snapshot)
| Failed (e : PyError) (stack : list Z) (printed : list Snapshot).

Fixpoint interpret_loop (bytecode : list BytecodeInstruction)
  (stack : list Z) (printed : list Snapshot) : Run :=
  match bytecode with
  | [] => Finished stack printed
  | instruction :: rest =>
      match execute instruction stack with
      | inl (e, stack') => Failed e stack' printed
      | inr stack' =>
          match line_str (instruction, stack') with
          | None => Failed UnprintableInteger stack' printed
          | Some _ =>
              interpret_loop rest stack' (printed ++ [(instruction, stack')])
          end
      end
  end.

Definition interpret (bytecode : list BytecodeInstruction) : Run :=
  interpret_loop bytecode [] [].

(** One turn of the loop, prints included: the new stack, or the error. *)
Definition step (instruction : BytecodeInstruction) (stack : list Z)
  : (PyError * list Z) + list Z :=
  match execute instruction stack with
  | inl failure => inl failure
  | inr stack' =>
      if forallb printable stack' then inr stack'
      else inl (UnprintableInteger, stack')
  end.

(** ** The pipeline of [main], for any source text *)

Inductive Pipeline : Type :=
| ScanFailed (e : PyError)
| ParseFailed (e : PyError) (parser : PrattParser)
| ParseStuck
| Interpreted (parser : PrattParser) (run : Run).

Definition main (source : string) : Pipeline :=
  match simple_scan source with
  | inl e => ScanFailed e
  | inr toks =>
      match parse toks with
      | Returned parser => Interpreted parser (interpret (bytecode parser))
      | Raised e parser => ParseFailed e parser
      | OutOfFuel => ParseStuck
      end
  end.

(** ** Well-formed expressions and their arithmetic value

    The inputs of the correctness statement: a sum of products of single
    digits, written with optional whitespace.  The value is that of the
    syntax tree in which [*] binds tighter than [+] and operators of the
    same rank group to the left. *)

Inductive Digit : Type := D0 | D1 | D2 | D3 | D4 | D5 | D6 | D7 | D8 | D9.

Definition digit_value (d : Digit) : Z :=
  match d with
  | D0 => 0 | D1 => 1 | D2 => 2 | D3 => 3 | D4 => 4
  | D5 => 5 | D6 => 6 | D7 => 7 | D8 => 8 | D9 => 9
  end.

Definition digit_char (d : Digit) : ascii :=
  match d with
  | D0 => "0" | D1 => "1" | D2 => "2" | D3 => "3" | D4 => "4"
  | D5 => "5" | D6 => "6" | D7 => "7" | D8 => "8" | D9 => "9"
  end%char.

(** [d0 * d1 * ... * dk]. *)
Definition Product : Type := (Digit * list Digit)%type.

(** [p0 + p1 + ... + pk]. *)
Definition Sum : Type := (Product * list Product)%type.

Definition product_chars (t : Product) : list ascii :=
  digit_char (fst t) :: flat_map (fun d => ["*"%char; digit_char d]) (snd t).

Definition sum_chars (e : Sum) : list ascii :=
  product_chars (fst e)
  ++ flat_map (fun t => "+"%char :: product_chars t) (snd e).

(** The characters of a source text that are not whitespace. *)
Definition visible_chars (source : string) : list ascii :=
  filter (fun c => negb (isspace c)) (list_ascii_of_string source).

(** [source] is the expression [e] written with optional whitespace. *)
Definition spells (source : string) (e : Sum) : Prop :=
  visible_chars source = sum_chars e.

Inductive Ast : Type :=
| Num (d : Digit)
| Add (l r : Ast)
| Mul (l r : Ast).

Definition product_ast (t : Product) : Ast :=
  fold_left (fun l d => Mul l (Num d)) (snd t) (Num (fst t)).

Definition sum_ast (e : Sum) : Ast :=
  fold_left (fun l t => Add l (product_ast t)) (snd e) (product_ast (fst e)).

Fixpoint ast_value (a : Ast) : Z :=
  match a with
  | Num d => digit_value d
  | Add l r => ast_value l + ast_value r
  | Mul l r => ast_value l * ast_value r
  end.

(** Postfix form of a tree: operands first, then the operator. *)
Fixpoint ast_postfix (a : Ast) : list BytecodeInstruction :=
  match a with
  | Num d => [ConstantInstruction (digit_value d)]
  | Add l r => ast_postfix l ++ ast_postfix r ++ [AddInstruction]
  | Mul l r => ast_postfix l ++ ast_postfix r ++ [MultiplyInstruction]
  end.

(** The tokens [simple_scan] builds for the characters of an expression. *)
Definition digit_token (d : Digit) : Token :=
  mkToken (String (digit_char d) EmptyString) NUMBER.

Definition plus_token : Token := mkToken "+" PLUS.

Definition star_token : Token := mkToken "*" MULTIPLY.

Definition star_tail (ds : list Digit) : list Token :=
  flat_map (fun d => [star_token; digit_token d]) ds.

Definition product_tokens (t : Product) : list Token :=
  digit_token (fst t) :: star_tail (snd t).

Definition plus_tail (ts : list Product) : list Token :=
  flat_map (fun t => plus_token :: product_tokens t) ts.

Definition sum_tokens (e : Sum) : list Token :=
  product_tokens (fst e) ++ plus_tail (snd e).



(** The value of every subtree, in the order the postfix form computes
    them: the values the interpreter pushes while it runs that form. *)
Fixpoint intermediate (a : Ast) : list Z :=
  match a with
  | Num d => [digit_value d]
  | Add l r => intermediate l ++ intermediate r ++ [ast_value l + ast_value r]
  | Mul l r => intermediate l ++ intermediate r ++ [ast_value l * ast_value r]
  end.



(** ** Observing the cursor *)

(** The tokens from the cursor on. *)
Definition ahead (self : PrattParser) : list Token :=
  skipn (Z.to_nat (current self)) (tokens self).

(** A method call ends in state [self']: it returned or it raised. *)
Definition ends (o : Outcome) (self' : PrattParser) : Prop :=
  o = Returned self' \/ exists e, o = Raised e self'.

(** One call of a parser method, at any precedence. *)
Inductive operation (self self' : PrattParser) : Prop :=
| op_number : ends (number self) self' -> operation self self'
| op_parse_precedence (fuel : nat) (precedence : Z) :
    ends (parse_precedence fuel precedence self) self' -> operation self self'
| op_binary (fuel : nat) :
    ends (binary fuel self) self' -> operation self self'.

(** The states a parser built on [toks] goes through under any sequence of
    method calls, a raised exception not ending the sequence. *)
Inductive reachable (toks : list Token) : PrattParser -> Prop :=
| reachable_init : reachable toks (PrattParser_init toks)
| reachable_operation (self self' : PrattParser) :
    reachable toks self -> operation self self' -> reachable toks self'.

(** [trail n lo log hi]: the reads of [log], in order, were made while the
    cursor went from [lo] to [hi] without ever decreasing; each read is at
    an index of the token list that is not below the last consumed
    position (the cursor minus one). *)
Fixpoint trail (n lo : Z) (log : list (Z * Z)) (hi : Z) : Prop :=
  match log with
  | [] => lo <= hi
  | (i, c) :: log' =>
      lo <= c /\ c - 1 <= i /\ 0 <= i < n /\ trail n c log' hi
  end.

(** The cursor is an index into the token list, or its length. *)
Definition within (self : PrattParser) : Prop :=
  0 <= current self <= len_tokens self.

(** [advanced self self']: going from [self] to [self'] kept the token
    list, only appended to the bytecode, moved the cursor forward and not
    past the end, and made its reads without going back. *)
Definition advanced (self self' : PrattParser) : Prop :=
  tokens self' = tokens self /\
  current self <= current self' <= len_tokens self /\
  (exists emitted, bytecode self' = bytecode self ++ emitted) /\
  exists log,
    reads self' = reads self ++ log /\
    trail (len_tokens self) (current self) log (current self').

(** Whatever way a call ends, it has [advanced]. *)
Definition safe (self : PrattParser) (o : Outcome) : Prop :=
  match o with
  | Returned self' => advanced self self'
  | Raised _ self' => advanced self self'
  | OutOfFuel => True
  end.

(** [jump()] for a method taken from the jump table. *)
Definition jump_call (fuel : nat) (jump : Parselet) (self : PrattParser)
  : Outcome :=
  match jump with
  | number_method => number self
  | binary_method => binary fuel self
  end.

(** What follows a call that returned; a raised exception propagates. *)
Definition and_then (o : Outcome) (k : PrattParser -> Outcome) : Outcome :=
  match o with
  | Returned self => k self
  | Raised e self => Raised e self
  | OutOfFuel => OutOfFuel
  end.

(** [moved self self' emitted rest]: [self'] is [self] with [emitted]
    appended to the bytecode and the cursor moved on to the tokens [rest]. *)
Definition moved (self self' : PrattParser)
  (emitted : list BytecodeInstruction) (rest : list Token) : Prop :=
  tokens self' = tokens self /\
  0 <= current self' /\
  ahead self' = rest /\
  bytecode self' = bytecode self ++ emitted.

(** The call returned, having [moved]. *)
Definition lands (self : PrattParser) (o : Outcome)
  (emitted : list BytecodeInstruction) (rest : list Token) : Prop :=
  exists self', o = Returned self' /\ moved self self' emitted rest.

(** A recursion budget that covers the tokens ahead of the cursor. *)
Definition enough (fuel : nat) (self : PrattParser) : Prop :=
  (2 * List.length (ahead self) + 1 <= fuel)%nat.

(** The token list is empty or starts with an operator. *)
Definition operator_first (rest : list Token) : Prop :=
  match rest with
  | [] => True
  | t :: _ => value (kind t) <= 1
  end.

(** The bytecode expected for the pieces of an expression. *)
Definition stars_code (ds : list Digit) : list BytecodeInstruction :=
  flat_map
    (fun d => [ConstantInstruction (digit_value d); MultiplyInstruction]) ds.

Definition product_code (t : Product) : list BytecodeInstruction :=
  ConstantInstruction (digit_value (fst t)) :: stars_code (snd t).

Definition pluses_code (ts : list Product) : list BytecodeInstruction :=
  flat_map (fun t => product_code t ++ [AddInstruction]) ts.

Definition sum_code (e : Sum) : list BytecodeInstruction :=
  product_code (fst e) ++ pluses_code (snd e).

(** ** Observing the scanner *)

(** The characters [simple_scan] turns into a token. *)
Definition accepted (char : ascii) : bool :=
  isdigit char || (code char =? 43) || (code char =? 42).

(** The token appended for an accepted character. *)
Definition char_token (char : ascii) : Token :=
  mkToken (String char EmptyString)
    (if isdigit char then NUMBER
     else if code char =? 43 then PLUS else MULTIPLY).

Definition all_space (source : string) : bool :=
  forallb isspace (list_ascii_of_string source).

(** The exceptions a parser method raises when its cursor is in bounds. *)
Definition parse_error (e : PyError) : Prop :=
  e = NoPrefixParselet \/ e = NoInfixParselet \/ e = InvalidNumberLiteral.


(** ** Observing the interpreter *)

(** Stack height after [bytecode] started on a stack of height [h], read
    off the shape of the instructions alone; [None] when an [Add] or a
    [Multiply] is reached with fewer than two values. *)
Fixpoint final_height (h : nat) (bytecode : list BytecodeInstruction)
  : option nat :=
  match bytecode with
  | [] => Some h
  | ConstantInstruction _ :: rest => final_height (S h) rest
  | _ :: rest =>
      if (2 <=? h)%nat then final_height (h - 1) rest else None
  end.

(** A snapshot seen above the values [below]. *)
Definition lift_snapshot (below : list Z) (s : Snapshot) : Snapshot :=
  (fst s, below ++ snd s).

(** The cursor is at or past the end of the tokens. *)
Definition at_end (self : PrattParser) : Prop :=
  len_tokens self <= current self.

(** Shapes of emitted bytecode, by their effect on the stack height:
    a complete operand, an operand ending in an operator without right
    operand, a run of (operator, operand) pairs, and such a run ending in
    an operator without right operand. *)
Definition pushes_one (em : list BytecodeInstruction) : Prop :=
  forall h, final_height h em = Some (S h).

Definition dangles (em : list BytecodeInstruction) : Prop :=
  final_height 0 em = None /\ forall h, final_height (S h) em = Some (S h).

Definition keeps (em : list BytecodeInstruction) : Prop :=
  forall h, final_height (S h) em = Some (S h).

Definition falls (em : list BytecodeInstruction) : Prop :=
  final_height 1 em = None /\
  forall h, final_height (S (S h)) em = Some (S h).

(** What [parse_precedence] emitted between [self] and [self']. *)
Definition operand_shape (self self' : PrattParser) : Prop :=
  exists em,
    bytecode self' = bytecode self ++ em /\
    (pushes_one em \/ (at_end self' /\ (em = [] \/ dangles em))).

(** What the loop, or [binary], emitted between [self] and [self']. *)
Definition loop_shape (self self' : PrattParser) : Prop :=
  exists em,
    bytecode self' = bytecode self ++ em /\
    (keeps em \/ (at_end self' /\ falls em)).

(** The values pushed by a bytecode list, in order. *)
Fixpoint constants (bytecode : list BytecodeInstruction) : list Z :=
  match bytecode with
  | [] => []
  | ConstantInstruction v :: rest => v :: constants rest
  | _ :: rest => constants rest
  end.

Definition is_number (t : Token) : bool :=
  match kind t with
  | NUMBER => true
  | _ => false
  end.

(** [int(lexeme)] of the NUMBER tokens of a list, in order. *)
Definition literals (toks : list Token) : list (option Z) :=
  map (fun t => py_int (lexeme t)) (filter is_number toks).

(** The constants emitted so far are the literals before the cursor. *)
Definition in_order (self : PrattParser) : Prop :=
  map Some (constants (bytecode self))
  = literals (firstn (Z.to_nat (current self)) (tokens self)).

(** The kind of token an instruction is emitted for. *)
Definition kind_of_instruction (i : BytecodeInstruction) : TokenKind :=
  match i with
  | ConstantInstruction _ => NUMBER
  | AddInstruction => PLUS
  | MultiplyInstruction => MULTIPLY
  end.

(** [tallied pending self]: the instructions emitted so far, together with
    the operators consumed whose instruction is still to come ([pending]),
    match the tokens before the cursor kind for kind. *)
Definition tallied (pending : list TokenKind) (self : PrattParser) : Prop :=
  Permutation
    (map kind_of_instruction (bytecode self) ++ pending)
    (map kind (firstn (Z.to_nat (current self)) (tokens self))).

(** * Properties *)

(** ** Built-ins and token kinds *)

Lemma pop_app {A : Type} (l : list A) (x : A) : pop (l ++ [x]) = Some (x, l).
Proof.
  induction l as [|y l IH]; simpl.
  - reflexivity.
  - rewrite IH. reflexivity.
Qed.

Lemma pop_app2 {A : Type} (l : list A) (a b : A) :
  pop (l ++ [a; b]) = Some (b, l ++ [a]).
Proof.
  change [a; b] with ([a] ++ [b]). rewrite app_assoc. apply pop_app.
Qed.

Lemma increase_value (k : TokenKind) :
  value (increase k) = Z.min (value k + 1) (value NUMBER).
Proof. destruct k; reflexivity. Qed.

(** C4.  [increase] is the saturating successor on the order of the kinds
    by value, PLUS < MULTIPLY < NUMBER: it maps PLUS to MULTIPLY, MULTIPLY
    to NUMBER and NUMBER to itself, so its result never goes above NUMBER
    and NUMBER is a fixed point. *)
Theorem increase_saturating :
  value PLUS < value MULTIPLY < value NUMBER /\
  increase PLUS = MULTIPLY /\
  increase MULTIPLY = NUMBER /\
  increase NUMBER = NUMBER /\
  forall k : TokenKind,
    value (increase k) <= value NUMBER /\
    value (increase k) = Z.min (value k + 1) (value NUMBER) /\
    value k <= value (increase k) /\
    (nth_error member_names (Z.to_nat (value k + 1)) = Some (increase k) \/
     value k + 1 >= value NUMBER).
Proof.
  repeat split; try reflexivity; destruct k; simpl; try lia;
    try (cbv; congruence); try (left; reflexivity); right; lia.
Qed.

Lemma int_str_bound_eq : int_str_bound = 10 ^ int_max_str_digits.
Proof. vm_compute. reflexivity. Qed.

Lemma decimal_value_range (c : ascii) (d : Z) :
  decimal_value c = Some d -> 0 <= d <= 9.
Proof.
  unfold decimal_value.
  destruct ((48 <=? code c) && (code c <=? 57)) eqn:E; [|discriminate].
  intros H. injection H as <-. lia.
Qed.

Lemma int_digits_bound (cs : list ascii) :
  forall (acc count : Z) (after_digit : bool) (v n : Z),
    0 <= count -> 0 <= acc < 10 ^ count ->
    int_digits acc count after_digit cs = Some (v, n) ->
    0 <= v < 10 ^ n.
Proof.
  induction cs as [|c cs IH]; intros acc count b v n Hc Ha; cbn [int_digits].
  - destruct b; [|discriminate]. intros H. injection H as <- <-. exact Ha.
  - destruct (decimal_value c) as [d|] eqn:D.
    + apply IH; [lia|]. apply decimal_value_range in D.
      rewrite Z.pow_add_r by lia. change (10 ^ 1) with 10.
      revert Ha. generalize (10 ^ count). intros P Ha. lia.
    + destruct ((code c =? 95) && b); [|discriminate].
      apply IH; assumption.
Qed.

Lemma int_unsigned_bound (cs : list ascii) (v : Z) :
  int_unsigned cs = Some v -> 0 <= v < int_str_bound.
Proof.
  unfold int_unsigned.
  destruct (int_digits 0 0 false cs) as [[w n]|] eqn:E; [|discriminate].
  destruct (n <=? int_max_str_digits) eqn:L; [|discriminate].
  intros H. injection H as <-.
  apply int_digits_bound in E; [|lia|change (10 ^ 0) with 1; lia].
  rewrite int_str_bound_eq.
  assert (P : 10 ^ n <= 10 ^ int_max_str_digits).
  { apply Z.pow_le_mono_r; lia. }
  revert P E. generalize (10 ^ n) (10 ^ int_max_str_digits). intros A B P E.
  lia.
Qed.

(** What [int] returns, [str] can print: the [print] of [emit] cannot
    raise on a constant made by [number]. *)
Lemma py_int_printable (s : string) (v : Z) :
  py_int s = Some v -> printable v = true.
Proof.
  unfold py_int, printable.
  destruct (strip (list_ascii_of_string s)) as [|c cs]; [discriminate|].
  destruct (code c =? 43); [|destruct (code c =? 45)]; intros H.
  - apply int_unsigned_bound in H. apply Z.ltb_lt.
    revert H. generalize int_str_bound. intros B H. lia.
  - destruct (int_unsigned cs) as [w|] eqn:E; [|discriminate].
    injection H as <-. apply int_unsigned_bound in E. apply Z.ltb_lt.
    revert E. generalize int_str_bound. intros B E. lia.
  - apply int_unsigned_bound in H. apply Z.ltb_lt.
    revert H. generalize int_str_bound. intros B H. lia.
Qed.

(** ** Interpreter *)

Lemma execute_binary_operands (stack : list Z) (a b : Z) :
  execute AddInstruction (stack ++ [a; b]) = inr (stack ++ [a + b]) /\
  execute MultiplyInstruction (stack ++ [a; b]) = inr (stack ++ [a * b]).
Proof.
  unfold execute. rewrite pop_app2, pop_app. split; reflexivity.
Qed.

Lemma short_stack_cases (stack : list Z) :
  (List.length stack < 2)%nat -> stack = [] \/ exists a, stack = [a].
Proof.
  destruct stack as [|a [|b stack]]; simpl; intros H.
  - left; reflexivity.
  - right; exists a; reflexivity.
  - lia.
Qed.

(** C6.  [Add] and [Multiply] need two operands: on a stack ending in
    [a; b] the top [b] is popped first, then [a], and [a + b] (for
    [Multiply], [a * b]) is pushed in their place; on a stack of fewer than
    two elements either instruction fails with [StackUnderflow], and so
    does [interpret] when it reaches it. *)
Theorem arithmetic_instructions (stack : list Z) :
  (forall a b : Z,
      pop (stack ++ [a; b]) = Some (b, stack ++ [a]) /\
      pop (stack ++ [a]) = Some (a, stack) /\
      execute AddInstruction (stack ++ [a; b]) = inr (stack ++ [a + b]) /\
      execute MultiplyInstruction (stack ++ [a; b]) = inr (stack ++ [a * b])) /\
  ((List.length stack < 2)%nat ->
   execute AddInstruction stack = inl (StackUnderflow, []) /\
   execute MultiplyInstruction stack = inl (StackUnderflow, []) /\
   forall rest printed,
     interpret_loop (AddInstruction :: rest) stack printed
       = Failed StackUnderflow [] printed /\
     interpret_loop (MultiplyInstruction :: rest) stack printed
       = Failed StackUnderflow [] printed).
Proof.
  split.
  - intros a b. rewrite pop_app2, pop_app.
    destruct (execute_binary_operands stack a b) as [Ha Hm].
    repeat split; assumption.
  - intros H. destruct (short_stack_cases stack H) as [-> | [a ->]];
      repeat split; reflexivity.
Qed.

Lemma arithmetic_instructions_witness :
  (List.length [5] < 2)%nat /\
  execute AddInstruction [5] = inl (StackUnderflow, []).
Proof.
  split; [simpl; lia |].
  apply (arithmetic_instructions [5]). simpl; lia.
Defined.

Lemma stack_str_printable (stack : list Z) :
  stack_str stack = None <-> forallb printable stack = false.
Proof.
  induction stack as [|v stack IH]; simpl.
  - split; discriminate.
  - unfold py_str. destruct (printable v); simpl.
    + destruct (stack_str stack).
      * split; [discriminate|]. intros H. apply IH in H. discriminate.
      * split; [intros _; apply IH; reflexivity | reflexivity].
    + split; reflexivity.
Qed.

(** After an instruction has run, its line can be printed exactly when
    every value of the stack can: the value of a [Constant] is on it. *)
Lemma line_str_execute (i : BytecodeInstruction) (stack stack' : list Z) :
  execute i stack = inr stack' ->
  (line_str (i, stack') = None <-> forallb printable stack' = false).
Proof.
  intros E. unfold line_str. cbn [fst snd].
  pose proof (stack_str_printable stack') as S.
  destruct i as [v | |]; cbn [instruction_str].
  - simpl in E. injection E as <-. unfold py_str.
    destruct (printable v) eqn:P; cbn [option_map].
    + destruct (stack_str (stack ++ [v])); [|exact S].
      split; [discriminate|]. intros H. apply S in H. discriminate.
    + split; [|reflexivity]. intros _.
      rewrite forallb_app. simpl. rewrite P. apply andb_false_r.
  - destruct (stack_str stack'); [|exact S].
    split; [discriminate|]. intros H. apply S in H. discriminate.
  - destruct (stack_str stack'); [|exact S].
    split; [discriminate|]. intros H. apply S in H. discriminate.
Qed.

Lemma interpret_loop_step (i : BytecodeInstruction)
  (rest : list BytecodeInstruction) (stack : list Z)
  (printed : list Snapshot) :
  interpret_loop (i :: rest) stack printed
  = match step i stack with
    | inl (e, stack') => Failed e stack' printed
    | inr stack' => interpret_loop rest stack' (printed ++ [(i, stack')])
    end.
Proof.
  cbn [interpret_loop]. unfold step.
  destruct (execute i stack) as [[e s']|s'] eqn:E; [reflexivity|].
  pose proof (line_str_execute i stack s' E) as L.
  destruct (forallb printable s').
  - destruct (line_str (i, s')); [reflexivity|].
    destruct L as [L _]. specialize (L eq_refl). discriminate.
  - destruct L as [_ L]. rewrite (L eq_refl). reflexivity.
Qed.

Lemma execute_error (i : BytecodeInstruction) (stack stack' : list Z)
  (e : PyError) :
  execute i stack = inl (e, stack') ->
  e = StackUnderflow /\ (i = AddInstruction \/ i = MultiplyInstruction).
Proof.
  destruct i; unfold execute; cbn [isinstance].
  - discriminate.
  - destruct (pop stack) as [[b s1]|]; [destruct (pop s1) as [[a s2]|]|];
      intros E; inversion E; subst; split; auto.
  - destruct (pop stack) as [[b s1]|]; [destruct (pop s1) as [[a s2]|]|];
      intros E; inversion E; subst; split; auto.
Qed.

Lemma step_error (i : BytecodeInstruction) (stack stack' : list Z)
  (e : PyError) :
  step i stack = inl (e, stack') ->
  execute i stack = inl (e, stack') \/
  (e = UnprintableInteger /\ execute i stack = inr stack' /\
   forallb printable stack' = false).
Proof.
  unfold step. destruct (execute i stack) as [[e1 s1]|s1] eqn:E.
  - intros H. injection H as <- <-. left. reflexivity.
  - destruct (forallb printable s1) eqn:P; [discriminate|].
    intros H. injection H as <- <-. right. auto.
Qed.

Lemma step_ok (i : BytecodeInstruction) (stack stack' : list Z) :
  step i stack = inr stack' ->
  execute i stack = inr stack' /\ forallb printable stack' = true.
Proof.
  unfold step. destruct (execute i stack) as [[e1 s1]|s1]; [discriminate|].
  destruct (forallb printable s1) eqn:P; [|discriminate].
  intros H. injection H as <-. auto.
Qed.

Lemma interpret_loop_constants (vs stack : list Z) (printed : list Snapshot) :
  forallb printable (stack ++ vs) = true ->
  exists printed',
    interpret_loop (map ConstantInstruction vs) stack printed
    = Finished (stack ++ vs) printed'.
Proof.
  revert stack printed.
  induction vs as [|v vs IH]; intros stack printed H.
  - exists printed. rewrite app_nil_r. reflexivity.
  - cbn [map]. rewrite interpret_loop_step. unfold step. cbn [execute isinstance].
    assert (H' : forallb printable ((stack ++ [v]) ++ vs) = true).
    { rewrite <- app_assoc. exact H. }
    assert (P : forallb printable (stack ++ [v]) = true).
    { rewrite forallb_app in H'. apply andb_prop in H'. apply H'. }
    rewrite P.
    destruct (IH (stack ++ [v])
                (printed ++ [(ConstantInstruction v, stack ++ [v])]) H')
      as [printed' E].
    exists printed'. rewrite E, <- app_assoc. reflexivity.
Qed.

Lemma last_default {A : Type} (l : list A) (x d d' : A) :
  last (x :: l) d = last (x :: l) d'.
Proof.
  revert x. induction l as [|y l IH]; intros x.
  - reflexivity.
  - change (last (y :: l) d = last (y :: l) d'). apply IH.
Qed.

Lemma interpret_loop_outcome (bytecode : list BytecodeInstruction) :
  forall stack printed,
    match interpret_loop bytecode stack printed with
    | Finished stack' printed' =>
        exists new, printed' = printed ++ new /\ map fst new = bytecode /\
                    last (map snd new) stack = stack'
    | Failed e stack' printed' =>
        exists new i rest,
          printed' = printed ++ new /\ bytecode = map fst new ++ i :: rest /\
          ((e = StackUnderflow /\
            (i = AddInstruction \/ i = MultiplyInstruction)) \/
           e = UnprintableInteger)
    end.
Proof.
  induction bytecode as [|i bytecode IH]; intros stack printed.
  - exists []. rewrite app_nil_r. simpl. auto.
  - rewrite interpret_loop_step.
    destruct (step i stack) as [[e s']|s'] eqn:E.
    + exists [], i, bytecode. rewrite app_nil_r.
      split; [reflexivity|]. split; [reflexivity|].
      apply step_error in E. destruct E as [E | [E _]]; [|auto].
      apply execute_error in E. auto.
    + specialize (IH s' (printed ++ [(i, s')])).
      destruct (interpret_loop bytecode s' (printed ++ [(i, s')]))
        as [st pr | e st pr].
      * destruct IH as (new & -> & Hf & Hl).
        exists ((i, s') :: new). rewrite <- app_assoc. simpl.
        split; [reflexivity|]. split; [congruence|].
        destruct new as [|x new]; [exact Hl|].
        rewrite <- Hl. apply last_default.
      * destruct IH as (new & j & rest & -> & Hb & Hj).
        exists ((i, s') :: new), j, rest. rewrite <- app_assoc. simpl.
        split; [reflexivity|]. split; [congruence|exact Hj].
Qed.

(** C5 (as stated, refuted).  [interpret] ends normally with no value and
    with two values on the stack: there is no check of the final size. *)
Lemma interpret_ends_with_any_size :
  interpret [] = Finished [] [] /\
  interpret [ConstantInstruction 1; ConstantInstruction 2]
  = Finished [1; 2]
      [(ConstantInstruction 1, [1]); (ConstantInstruction 2, [1; 2])].
Proof. split; reflexivity. Qed.

(** C5 (amended).  [interpret] makes no check after the last instruction:
    once the loop is through, the run ends normally with the stack as it
    is, whatever its size.  A run that ends normally has executed and
    printed every instruction, and its final stack is the one printed
    last, the program result when it holds one value.  Such runs leave any
    number of values: pushing the constants [vs], each within the digit
    limit of [str], ends normally with the stack [vs]. *)
Theorem interpret_no_final_check :
  (forall (stack : list Z) (printed : list Snapshot),
      interpret_loop [] stack printed = Finished stack printed) /\
  (forall (bytecode : list BytecodeInstruction) (stack : list Z)
          (printed : list Snapshot),
      interpret bytecode = Finished stack printed ->
      map fst printed = bytecode /\ last (map snd printed) [] = stack) /\
  (forall vs : list Z,
      forallb printable vs = true ->
      exists printed,
        interpret (map ConstantInstruction vs) = Finished vs printed).
Proof.
  split; [reflexivity|]. split.
  - intros bytecode stack printed E. unfold interpret in E.
    pose proof (interpret_loop_outcome bytecode [] []) as H.
    rewrite E in H. destruct H as (new & -> & Hf & Hl). simpl. auto.
  - intros vs H. apply (interpret_loop_constants vs [] []). exact H.
Qed.

Lemma interpret_no_final_check_witness :
  forallb printable [4; 5; 6] = true /\
  exists printed,
    interpret (map ConstantInstruction [4; 5; 6]) = Finished [4; 5; 6] printed.
Proof.
  split; [reflexivity|].
  destruct interpret_no_final_check as (_ & _ & H).
  apply (H [4; 5; 6]). reflexivity.
Defined.

(** ** Scanner *)

Lemma scan_loop_spaces (source : string) (acc : list Token) :
  all_space source = true -> scan_loop acc source = inr acc.
Proof.
  unfold all_space. revert acc.
  induction source as [|c source IH]; intros acc H; simpl in *.
  - reflexivity.
  - apply andb_prop in H. destruct H as [Hc H]. rewrite Hc. apply IH, H.
Qed.

Lemma scan_loop_accepted (source : string) (acc : list Token) :
  forallb accepted (visible_chars source) = true ->
  scan_loop acc source = inr (acc ++ map char_token (visible_chars source)).
Proof.
  unfold visible_chars. revert acc.
  induction source as [|c source IH]; intros acc H; simpl in *.
  - rewrite app_nil_r. reflexivity.
  - destruct (isspace c) eqn:Hs; simpl in *.
    + apply IH, H.
    + apply andb_prop in H. destruct H as [Hc H].
      unfold accepted in Hc. unfold char_token at 1.
      destruct (isdigit c) eqn:Hd.
      * rewrite (IH _ H), <- app_assoc. reflexivity.
      * destruct (code c =? 43) eqn:Hp.
        -- rewrite (IH _ H), <- app_assoc. reflexivity.
        -- simpl in Hc. rewrite Hc.
           rewrite (IH _ H), <- app_assoc. reflexivity.
Qed.

Lemma digit_char_token (d : Digit) : char_token (digit_char d) = digit_token d.
Proof. destruct d; reflexivity. Qed.

Lemma product_chars_tokens (t : Product) :
  map char_token (product_chars t) = product_tokens t.
Proof.
  destruct t as [d ds]. unfold product_chars, product_tokens, star_tail. simpl.
  rewrite digit_char_token. f_equal.
  induction ds as [|d' ds IH]; simpl.
  - reflexivity.
  - rewrite digit_char_token, IH. reflexivity.
Qed.

Lemma sum_chars_tokens (e : Sum) : map char_token (sum_chars e) = sum_tokens e.
Proof.
  destruct e as [t ts]. unfold sum_chars, sum_tokens, plus_tail. cbn [fst snd].
  rewrite map_app, product_chars_tokens. f_equal.
  induction ts as [|t' ts IH]; cbn [flat_map].
  - reflexivity.
  - rewrite map_app, IH. cbn [map]. rewrite product_chars_tokens.
    reflexivity.
Qed.

Lemma digit_char_accepted (d : Digit) : accepted (digit_char d) = true.
Proof. destruct d; reflexivity. Qed.

Lemma product_chars_accepted (t : Product) :
  forallb accepted (product_chars t) = true.
Proof.
  destruct t as [d ds]. unfold product_chars. simpl.
  rewrite digit_char_accepted. simpl.
  induction ds as [|d' ds IH]; simpl.
  - reflexivity.
  - rewrite digit_char_accepted. exact IH.
Qed.

Lemma sum_chars_accepted (e : Sum) : forallb accepted (sum_chars e) = true.
Proof.
  destruct e as [t ts]. unfold sum_chars. cbn [fst snd].
  rewrite forallb_app, product_chars_accepted. cbn [andb].
  induction ts as [|t' ts IH]; cbn [flat_map].
  - reflexivity.
  - rewrite forallb_app, IH. cbn [forallb app].
    rewrite product_chars_accepted. reflexivity.
Qed.

Lemma simple_scan_spells (source : string) (e : Sum) :
  spells source e -> simple_scan source = inr (sum_tokens e).
Proof.
  unfold spells, simple_scan. intros H.
  rewrite scan_loop_accepted; rewrite H.
  - rewrite sum_chars_tokens. reflexivity.
  - apply sum_chars_accepted.
Qed.

(** ** Parser: unfolding equations *)

Lemma parse_precedence_eq (fuel : nat) (precedence : Z) (self : PrattParser) :
  parse_precedence (S fuel) precedence self =
  if current self >=? len_tokens self then Returned self
  else
    match subscript self (current self) with
    | (None, self1) => Raised TokenIndexError self1
    | (Some start, self1) =>
        match fst (jumptable (kind start)) with
        | None => Raised NoPrefixParselet self1
        | Some jump =>
            and_then (jump_call fuel jump self1) (infix_loop fuel precedence)
        end
    end.
Proof. reflexivity. Qed.

Lemma infix_loop_eq (fuel : nat) (precedence : Z) (self : PrattParser) :
  infix_loop (S fuel) precedence self =
  if current self <? len_tokens self then
    match subscript self (current self) with
    | (None, self1) => Raised TokenIndexError self1
    | (Some t, self1) =>
        if precedence <=? value (kind t) then
          match subscript self1 (current self1) with
          | (None, self2) => Raised TokenIndexError self2
          | (Some t', self2) =>
              match snd (jumptable (kind t')) with
              | None => Raised NoInfixParselet self2
              | Some jump =>
                  and_then (jump_call fuel jump self2)
                           (infix_loop fuel precedence)
              end
          end
        else Returned self1
    end
  else Returned self.
Proof. reflexivity. Qed.

Lemma binary_eq (fuel : nat) (self : PrattParser) :
  binary (S fuel) self =
  if current self >=? len_tokens self then Returned self
  else
    match subscript self (current self) with
    | (None, self1) => Raised TokenIndexError self1
    | (Some operator, self1) =>
        and_then
          (parse_precedence fuel (value (increase (kind operator)))
             (set_current self1 (current self1 + 1)))
          (fun self3 =>
             match kind operator with
             | MULTIPLY => Returned (emit MultiplyInstruction self3)
             | PLUS => Returned (emit AddInstruction self3)
             | NUMBER => Returned self3
             end)
    end.
Proof. reflexivity. Qed.

(** ** Parser: the cursor only moves forward *)

Lemma trail_lower (n lo lo' hi : Z) (log : list (Z * Z)) :
  lo' <= lo -> trail n lo log hi -> trail n lo' log hi.
Proof.
  destruct log as [|[i c] log]; simpl; intros H T.
  - lia.
  - destruct T as (H1 & H2 & H3 & T). repeat split; try lia. exact T.
Qed.

Lemma trail_app (n lo mid hi : Z) (log1 log2 : list (Z * Z)) :
  trail n lo log1 mid -> trail n mid log2 hi -> trail n lo (log1 ++ log2) hi.
Proof.
  revert lo. induction log1 as [|[i c] log1 IH]; simpl; intros lo T1 T2.
  - apply trail_lower with mid; assumption.
  - destruct T1 as (H1 & H2 & H3 & T1). repeat split; try lia.
    apply IH; assumption.
Qed.

Lemma trail_bounds (n lo hi : Z) (log : list (Z * Z)) :
  trail n lo log hi -> lo <= hi.
Proof.
  revert lo. induction log as [|[i c] log IH]; simpl; intros lo T.
  - exact T.
  - destruct T as (H1 & _ & _ & T). apply IH in T. lia.
Qed.

Lemma advanced_refl (self : PrattParser) : within self -> advanced self self.
Proof.
  unfold within, advanced. intros H. repeat split; try lia.
  - exists []. rewrite app_nil_r. reflexivity.
  - exists []. rewrite app_nil_r. simpl. split; [reflexivity | lia].
Qed.

Lemma advanced_trans (a b c : PrattParser) :
  advanced a b -> advanced b c -> advanced a c.
Proof.
  unfold advanced, len_tokens.
  intros (Ht1 & Hc1 & [e1 He1] & l1 & Hl1 & T1)
         (Ht2 & Hc2 & [e2 He2] & l2 & Hl2 & T2).
  rewrite Ht1 in *. repeat split; try congruence; try lia.
  - exists (e1 ++ e2). rewrite He2, He1, app_assoc. reflexivity.
  - exists (l1 ++ l2). split.
    + rewrite Hl2, Hl1, app_assoc. reflexivity.
    + apply trail_app with (current b); assumption.
Qed.

Lemma advanced_within (a b : PrattParser) :
  within a -> advanced a b -> within b.
Proof.
  unfold within, advanced, len_tokens. intros H (Ht & Hc & _). rewrite Ht. lia.
Qed.

Lemma advanced_emit (i : BytecodeInstruction) (self : PrattParser) :
  within self -> advanced self (emit i self).
Proof.
  unfold within, advanced, emit. simpl. intros H. repeat split; try lia.
  - exists [i]. reflexivity.
  - exists []. rewrite app_nil_r. simpl. split; [reflexivity | lia].
Qed.

Lemma advanced_subscript (self : PrattParser) :
  within self -> current self < len_tokens self ->
  advanced self (snd (subscript self (current self))).
Proof.
  unfold within, advanced, subscript. simpl. intros H Hlt.
  repeat split; try lia.
  - exists []. rewrite app_nil_r. reflexivity.
  - exists [(current self, current self)]. simpl.
    split; [reflexivity | lia].
Qed.

Lemma advanced_consume_read (self : PrattParser) :
  within self -> current self < len_tokens self ->
  advanced self
    (snd (subscript (set_current self (current self + 1))
            (current (set_current self (current self + 1)) - 1))).
Proof.
  unfold within, advanced, subscript, set_current. simpl. intros H Hlt.
  repeat split; try lia.
  - exists []. rewrite app_nil_r. reflexivity.
  - exists [(current self + 1 - 1, current self + 1)]. simpl.
    split; [reflexivity | lia].
Qed.

Lemma advanced_consume (self : PrattParser) :
  within self -> current self < len_tokens self ->
  advanced self (set_current self (current self + 1)).
Proof.
  unfold within, advanced, set_current. simpl. intros H Hlt.
  repeat split; try lia.
  - exists []. rewrite app_nil_r. reflexivity.
  - exists []. rewrite app_nil_r. simpl. split; [reflexivity | lia].
Qed.

Lemma number_safe (self : PrattParser) : within self -> safe self (number self).
Proof.
  intros H. unfold number.
  destruct (current self >=? len_tokens self) eqn:E.
  - apply advanced_refl, H.
  - assert (Hlt : current self < len_tokens self) by lia.
    pose proof (advanced_consume_read self H Hlt) as A.
    destruct (subscript (set_current self (current self + 1))
                (current (set_current self (current self + 1)) - 1))
      as [[t|] self2]; simpl in A |- *.
    + destruct (py_int (lexeme t)); simpl.
      * apply advanced_trans with self2; [exact A|].
        apply advanced_emit. apply (advanced_within self); assumption.
      * exact A.
    + exact A.
Qed.

Lemma safe_trans (a b : PrattParser) (o : Outcome) :
  advanced a b -> safe b o -> safe a o.
Proof.
  intros A. destruct o as [c | e c |]; simpl; auto;
    intros B; apply advanced_trans with b; assumption.
Qed.

Lemma and_then_safe (self : PrattParser) (o : Outcome)
  (k : PrattParser -> Outcome) :
  safe self o ->
  (forall self', advanced self self' -> safe self' (k self')) ->
  safe self (and_then o k).
Proof.
  intros Ho Hk. destruct o as [b | e b |]; simpl in *; auto.
  apply safe_trans with b; auto.
Qed.

Lemma subscript_within (self : PrattParser) (i : Z) :
  within self -> within (snd (subscript self i)).
Proof. intros H; exact H. Qed.

Lemma methods_safe (fuel : nat) :
  (forall precedence self,
      within self -> safe self (parse_precedence fuel precedence self)) /\
  (forall precedence self,
      within self -> safe self (infix_loop fuel precedence self)) /\
  (forall self, within self -> safe self (binary fuel self)).
Proof.
  induction fuel as [|fuel (IHp & IHl & IHb)].
  { repeat split; intros; exact I. }
  assert (Hjump : forall jump self,
             within self -> safe self (jump_call fuel jump self)).
  { intros [|] self H; simpl; [apply number_safe | apply IHb]; exact H. }
  split; [|split].
  - intros precedence self H. rewrite parse_precedence_eq.
    destruct (current self >=? len_tokens self) eqn:E.
    { apply advanced_refl, H. }
    assert (Hlt : current self < len_tokens self) by lia.
    pose proof (advanced_subscript self H Hlt) as A.
    pose proof (subscript_within self (current self) H) as W.
    unfold subscript in *. simpl in A, W.
    destruct (py_index (tokens self) (current self)) as [start|]; [|exact A].
    destruct (fst (jumptable (kind start))) as [jump|]; [|exact A].
    eapply safe_trans; [exact A|].
    apply and_then_safe; [apply Hjump, W|].
    intros self' A'. apply IHl. eapply advanced_within; eassumption.
  - intros precedence self H. rewrite infix_loop_eq.
    destruct (current self <? len_tokens self) eqn:E.
    2:{ apply advanced_refl, H. }
    assert (Hlt : current self < len_tokens self) by lia.
    pose proof (advanced_subscript self H Hlt) as A.
    pose proof (subscript_within self (current self) H) as W.
    unfold subscript at 1. unfold subscript in A, W. simpl in A, W.
    destruct (py_index (tokens self) (current self)) as [t|]; [|exact A].
    destruct (precedence <=? value (kind t)); [|exact A].
    eapply safe_trans; [exact A|]. clear A.
    pose proof (advanced_subscript _ W Hlt) as A.
    pose proof (subscript_within _ (current self) W) as W'.
    unfold subscript in *. simpl in A, W' |- *.
    destruct (py_index (tokens self) (current self)) as [t'|]; [|exact A].
    destruct (snd (jumptable (kind t'))) as [jump|]; [|exact A].
    eapply safe_trans; [exact A|].
    apply and_then_safe; [apply Hjump, W'|].
    intros self' A'. apply IHl. eapply advanced_within; eassumption.
  - intros self H. rewrite binary_eq.
    destruct (current self >=? len_tokens self) eqn:E.
    { apply advanced_refl, H. }
    assert (Hlt : current self < len_tokens self) by lia.
    pose proof (advanced_subscript self H Hlt) as A.
    pose proof (subscript_within self (current self) H) as W.
    unfold subscript in *. simpl in A, W |- *.
    destruct (py_index (tokens self) (current self)) as [operator|];
      [|exact A].
    eapply safe_trans; [exact A|].
    pose proof (advanced_consume _ W Hlt) as C. simpl in C.
    eapply safe_trans; [exact C|].
    apply and_then_safe.
    + apply IHp. eapply advanced_within; eassumption.
    + intros self' A'.
      assert (W'' : within self').
      { eapply advanced_within; [|exact A'].
        eapply advanced_within; eassumption. }
      destruct (kind operator); simpl.
      * apply advanced_emit, W''.
      * apply advanced_emit, W''.
      * apply advanced_refl, W''.
Qed.

Lemma parse_precedence_safe (fuel : nat) (precedence : Z) (self : PrattParser) :
  within self -> safe self (parse_precedence fuel precedence self).
Proof. intros H. apply (methods_safe fuel), H. Qed.

Lemma binary_safe (fuel : nat) (self : PrattParser) :
  within self -> safe self (binary fuel self).
Proof. intros H. apply (methods_safe fuel), H. Qed.

Lemma jump_call_safe (fuel : nat) (jump : Parselet) (self : PrattParser) :
  within self -> safe self (jump_call fuel jump self).
Proof.
  intros H. destruct jump; simpl; [apply number_safe | apply binary_safe];
    exact H.
Qed.

(** A parselet called on a token consumes it. *)
Lemma jump_call_progress (fuel : nat) (jump : Parselet)
  (self self' : PrattParser) :
  within self -> current self < len_tokens self ->
  jump_call fuel jump self = Returned self' ->
  current self + 1 <= current self'.
Proof.
  intros H Hlt. destruct jump; simpl.
  - unfold number.
    destruct (current self >=? len_tokens self) eqn:E; [lia|].
    unfold subscript. simpl.
    destruct (py_index (tokens self) (current self + 1 - 1)) as [t|];
      [|discriminate].
    destruct (py_int (lexeme t)); [|discriminate].
    intros R. inversion R. simpl. lia.
  - destruct fuel as [|fuel]; [discriminate|]. rewrite binary_eq.
    destruct (current self >=? len_tokens self) eqn:E; [lia|].
    unfold subscript. simpl.
    destruct (py_index (tokens self) (current self)) as [operator|];
      [|discriminate].
    match goal with
    | |- and_then (parse_precedence ?f ?q ?s) _ = _ -> _ =>
        pose proof (parse_precedence_safe f q s) as S;
        destruct (parse_precedence f q s) as [self3 | e self3 |]
    end; simpl; try discriminate.
    assert (A : advanced
                  {| tokens := tokens self; current := current self + 1;
                     bytecode := bytecode self;
                     reads := reads self ++ [(current self, current self)] |}
                  self3).
    { apply S. unfold within, len_tokens in *. simpl. lia. }
    destruct A as (_ & Hc & _). simpl in Hc.
    destruct (kind operator); intros R; injection R as <-; simpl; lia.
Qed.

(** The budget [fuel_for] is enough: no method runs out of fuel. *)
Lemma methods_total (fuel : nat) :
  (forall precedence self,
      within self ->
      2 * (len_tokens self - current self) + 1 <= Z.of_nat fuel ->
      parse_precedence fuel precedence self <> OutOfFuel) /\
  (forall precedence self,
      within self ->
      2 * (len_tokens self - current self) + 1 <= Z.of_nat fuel ->
      infix_loop fuel precedence self <> OutOfFuel) /\
  (forall self,
      within self ->
      2 * (len_tokens self - current self) <= Z.of_nat fuel ->
      1 <= Z.of_nat fuel ->
      binary fuel self <> OutOfFuel).
Proof.
  induction fuel as [|fuel (IHp & IHl & IHb)].
  { repeat split; intros; unfold within in *; lia. }
  assert (Hjump : forall precedence jump self,
             within self -> current self < len_tokens self ->
             2 * (len_tokens self - current self) <= Z.of_nat fuel ->
             and_then (jump_call fuel jump self) (infix_loop fuel precedence)
             <> OutOfFuel).
  { intros precedence jump self H Hlt Hf.
    pose proof (jump_call_safe fuel jump self H) as S.
    pose proof (jump_call_progress fuel jump self) as P.
    destruct (jump_call fuel jump self) as [self' | e self' |] eqn:E; simpl.
    - specialize (P self' H Hlt eq_refl).
      simpl in S. pose proof (advanced_within _ _ H S) as W.
      destruct S as (Ht & _). apply IHl; [exact W|].
      unfold len_tokens in *. rewrite Ht. lia.
    - discriminate.
    - destruct jump; simpl in E.
      + unfold number in E.
        destruct (current self >=? len_tokens self); [discriminate|].
        unfold subscript in E. simpl in E.
        destruct (py_index (tokens self) (current self + 1 - 1)) as [t|];
          [|discriminate].
        destruct (py_int (lexeme t)); discriminate.
      + exfalso. revert E. apply IHb; [exact H | lia | lia]. }
  split; [|split].
  - intros precedence self H Hf. rewrite parse_precedence_eq.
    destruct (current self >=? len_tokens self) eqn:E; [discriminate|].
    unfold subscript. simpl.
    destruct (py_index (tokens self) (current self)) as [start|];
      [|discriminate].
    destruct (fst (jumptable (kind start))) as [jump|]; [|discriminate].
    apply Hjump; unfold within, len_tokens in *; cbn [tokens current] in *; lia.
  - intros precedence self H Hf. rewrite infix_loop_eq.
    destruct (current self <? len_tokens self) eqn:E; [|discriminate].
    unfold subscript. simpl.
    destruct (py_index (tokens self) (current self)) as [t|]; [|discriminate].
    destruct (precedence <=? value (kind t)); [|discriminate].
    destruct (snd (jumptable (kind t))) as [jump|]; [|discriminate].
    apply Hjump; unfold within, len_tokens in *; cbn [tokens current] in *; lia.
  - intros self H Hf H1. rewrite binary_eq.
    destruct (current self >=? len_tokens self) eqn:E; [discriminate|].
    unfold subscript. simpl.
    destruct (py_index (tokens self) (current self)) as [operator|];
      [|discriminate].
    match goal with
    | |- and_then (parse_precedence ?f ?q ?s) _ <> _ =>
        pose proof (IHp q s) as T;
        destruct (parse_precedence f q s) as [self3 | e self3 |]
    end; simpl.
    + destruct (kind operator); discriminate.
    + discriminate.
    + exfalso. apply T; [| |reflexivity];
        unfold within, len_tokens, set_current in *;
        cbn [tokens current] in *; lia.
Qed.

Lemma init_within (toks : list Token) : within (PrattParser_init toks).
Proof. unfold within, len_tokens. simpl. lia. Qed.

Lemma parse_precedence_total (toks : list Token) : parse toks <> OutOfFuel.
Proof.
  unfold parse. apply (methods_total _); [apply init_within|].
  unfold fuel_for, len_tokens, PrattParser_init. cbn [tokens current]. lia.
Qed.

Lemma main_not_stuck (source : string) : main source <> ParseStuck.
Proof.
  unfold main. destruct (simple_scan source) as [e | toks]; [discriminate|].
  pose proof (parse_precedence_total toks) as T.
  destruct (parse toks); [discriminate | discriminate | contradiction].
Qed.

Lemma operation_advanced (self self' : PrattParser) :
  within self -> operation self self' -> advanced self self'.
Proof.
  intros H [E | fuel precedence E | fuel E].
  - pose proof (number_safe self H) as S.
    destruct E as [E | [e E]]; rewrite E in S; exact S.
  - pose proof (parse_precedence_safe fuel precedence self H) as S.
    destruct E as [E | [e E]]; rewrite E in S; exact S.
  - pose proof (binary_safe fuel self H) as S.
    destruct E as [E | [e E]]; rewrite E in S; exact S.
Qed.

Lemma reachable_invariant (toks : list Token) (self : PrattParser) :
  reachable toks self ->
  tokens self = toks /\ within self /\
  trail (len_tokens self) 0 (reads self) (current self).
Proof.
  induction 1 as [|self self' R (Ht & W & T) Op].
  - split; [reflexivity|]. split; [apply init_within|]. simpl. lia.
  - destruct (operation_advanced _ _ W Op) as (Ht' & Hc & _ & log & Hl & T').
    split; [congruence|]. split.
    + unfold within, len_tokens in *. rewrite Ht'. lia.
    + unfold len_tokens in *. rewrite Ht', Hl.
      apply trail_app with (current self); assumption.
Qed.

Lemma trail_reads (n lo hi : Z) (log : list (Z * Z)) :
  trail n lo log hi ->
  Forall (fun r => lo <= snd r <= hi /\ snd r - 1 <= fst r /\ 0 <= fst r < n)
         log.
Proof.
  revert lo. induction log as [|[i c] log IH]; simpl; intros lo T.
  - constructor.
  - destruct T as (H1 & H2 & H3 & T). constructor.
    + simpl. apply trail_bounds in T. lia.
    + apply IH in T. eapply Forall_impl; [|exact T].
      simpl. intros r. lia.
Qed.

(** C9.  In every state a parser on [toks] reaches through any sequence of
    calls of [number], [parse_precedence] and [binary], the token list is
    still [toks] and the cursor lies between 0 and its length; every
    further call leaves the cursor where it was or further on; and every
    token read so far was made, the cursor never having decreased between
    two reads, at an index of the list that is not below the last consumed
    position. *)
Theorem cursor_only_advances (toks : list Token) (self : PrattParser) :
  reachable toks self ->
  tokens self = toks /\
  0 <= current self <= Z.of_nat (List.length toks) /\
  (forall self', operation self self' ->
                 current self <= current self' <= Z.of_nat (List.length toks)
                 /\ advanced self self') /\
  trail (Z.of_nat (List.length toks)) 0 (reads self) (current self) /\
  Forall (fun r => 0 <= snd r <= current self /\ snd r - 1 <= fst r
                   /\ 0 <= fst r < Z.of_nat (List.length toks))
         (reads self).
Proof.
  intros R. destruct (reachable_invariant toks self R) as (Ht & W & T).
  unfold within, len_tokens in *. rewrite Ht in *.
  split; [reflexivity|]. split; [exact W|]. split; [|split].
  - intros self' Op.
    assert (A : advanced self self').
    { apply operation_advanced; [|exact Op].
      unfold within, len_tokens. rewrite Ht. exact W. }
    split; [|exact A]. destruct A as (_ & Hc & _).
    unfold len_tokens in Hc. rewrite Ht in Hc. exact Hc.
  - exact T.
  - apply trail_reads, T.
Qed.

Lemma cursor_only_advances_witness :
  let toks := [digit_token D7; digit_token D3] in
  let self :=
    mkParser toks 1 [ConstantInstruction 7] [(0, 0); (0, 1); (1, 1); (1, 1)]
  in
  reachable toks self /\
  0 <= current self <= Z.of_nat (List.length toks).
Proof.
  intros toks self.
  assert (R : reachable toks self).
  { apply reachable_operation with (PrattParser_init toks).
    - apply reachable_init.
    - apply op_parse_precedence with (fuel := 2%nat) (precedence := 0).
      right. exists NoInfixParselet. reflexivity. }
  split; [exact R|].
  apply (cursor_only_advances toks self R).
Defined.

(** ** Parser: the handlers *)

Lemma parse_unfold (toks : list Token) :
  parse toks
  = parse_precedence (S (2 * List.length toks)) 0 (PrattParser_init toks).
Proof.
  unfold parse, fuel_for, len_tokens, PrattParser_init. cbn [tokens current].
  f_equal. lia.
Qed.

(** C3.  Called on an operator token (PLUS or MULTIPLY) at an in-bounds
    cursor, [binary] moves the cursor past that one token, calls
    [parse_precedence] with the value of [increase] of the operator's kind,
    which is the operator's own precedence plus one, and, only if that call
    returns, appends exactly one instruction to what the call left: [Add]
    for PLUS, [Multiply] for MULTIPLY.  If the call raises, the exception
    propagates and nothing is appended. *)
Theorem binary_handler (fuel : nat) (self : PrattParser) (operator : Token) :
  current self < len_tokens self ->
  py_index (tokens self) (current self) = Some operator ->
  kind operator = PLUS \/ kind operator = MULTIPLY ->
  let consumed :=
    set_current (snd (subscript self (current self))) (current self + 1) in
  let instruction :=
    match kind operator with
    | PLUS => AddInstruction
    | _ => MultiplyInstruction
    end in
  tokens consumed = tokens self /\
  current consumed = current self + 1 /\
  bytecode consumed = bytecode self /\
  value (increase (kind operator)) = value (kind operator) + 1 /\
  binary (S fuel) self =
    match
      parse_precedence fuel (value (increase (kind operator))) consumed
    with
    | Returned self' => Returned (emit instruction self')
    | Raised e self' => Raised e self'
    | OutOfFuel => OutOfFuel
    end /\
  forall self'',
    binary (S fuel) self = Returned self'' ->
    exists self',
      parse_precedence fuel (value (increase (kind operator))) consumed
      = Returned self' /\
      tokens self'' = tokens self' /\
      current self'' = current self' /\
      bytecode self'' = bytecode self' ++ [instruction].
Proof.
  intros Hlt Hop Hk consumed instruction.
  assert (Eq : binary (S fuel) self =
               match
                 parse_precedence fuel (value (increase (kind operator)))
                   consumed
               with
               | Returned self' => Returned (emit instruction self')
               | Raised e self' => Raised e self'
               | OutOfFuel => OutOfFuel
               end).
  { rewrite binary_eq.
    replace (current self >=? len_tokens self) with false by lia.
    unfold subscript at 1. rewrite Hop.
    subst consumed instruction. unfold and_then.
    destruct Hk as [-> | ->]; reflexivity. }
  repeat split; try reflexivity.
  - destruct Hk as [-> | ->]; reflexivity.
  - exact Eq.
  - intros self'' R. rewrite Eq in R.
    destruct (parse_precedence fuel (value (increase (kind operator)))
                consumed) as [self' | e self' |]; try discriminate.
    exists self'. injection R as <-. repeat split; reflexivity.
Qed.

Lemma binary_handler_witness :
  let self :=
    mkParser [digit_token D1; plus_token; digit_token D2] 1
             [ConstantInstruction 1] [] in
  current self < len_tokens self /\
  binary 4 self
  = Returned
      (mkParser [digit_token D1; plus_token; digit_token D2] 3
         [ConstantInstruction 1; ConstantInstruction 2; AddInstruction]
         [(1, 1); (2, 2); (2, 3)]).
Proof.
  intros self. split; [reflexivity|].
  destruct (binary_handler 3 self plus_token) as (_ & _ & _ & _ & E & _).
  - reflexivity.
  - reflexivity.
  - left; reflexivity.
  - rewrite E. reflexivity.
Defined.

(** C7.  When the first token of the input has a kind without prefix
    handler (PLUS or MULTIPLY), parsing raises at the prefix call, the
    bytecode being still empty and the cursor still on that token. *)
Theorem no_prefix_parselet (source : string) (first : Token)
  (rest : list Token) :
  simple_scan source = inr (first :: rest) ->
  kind first = PLUS \/ kind first = MULTIPLY ->
  fst (jumptable (kind first)) = None /\
  exists parser,
    parse (first :: rest) = Raised NoPrefixParselet parser /\
    main source = ParseFailed NoPrefixParselet parser /\
    tokens parser = first :: rest /\
    current parser = 0 /\
    bytecode parser = [].
Proof.
  intros Hs Hk.
  assert (Hj : fst (jumptable (kind first)) = None).
  { destruct Hk as [-> | ->]; reflexivity. }
  split; [exact Hj|].
  assert (Hp : parse (first :: rest)
               = Raised NoPrefixParselet
                   (snd (subscript (PrattParser_init (first :: rest)) 0))).
  { rewrite parse_unfold, parse_precedence_eq.
    replace (current (PrattParser_init (first :: rest))
             >=? len_tokens (PrattParser_init (first :: rest)))
      with false.
    2:{ unfold len_tokens, PrattParser_init. cbn [tokens current List.length].
        symmetry. rewrite Z.geb_leb. apply Z.leb_gt. lia. }
    cbn [PrattParser_init current tokens subscript py_index].
    unfold py_index. cbn [List.length].
    assert (Hn : 0 < Z.of_nat (S (List.length rest))) by lia.
    revert Hn. generalize (Z.of_nat (S (List.length rest))). intros n Hn.
    replace ((0 <=? 0) && (0 <? n)) with true by lia.
    cbn [Z.to_nat nth_error]. rewrite Hj. reflexivity. }
  eexists. split; [exact Hp|].
  split; [unfold main; rewrite Hs, Hp; reflexivity|].
  repeat split; reflexivity.
Qed.

Lemma no_prefix_parselet_witness :
  simple_scan "+1" = inr [plus_token; digit_token D1] /\
  exists parser,
    main "+1" = ParseFailed NoPrefixParselet parser /\ bytecode parser = [].
Proof.
  split; [reflexivity|].
  destruct (no_prefix_parselet "+1" plus_token [digit_token D1])
    as (_ & parser & _ & Hm & _ & _ & Hb).
  - reflexivity.
  - left; reflexivity.
  - exists parser. split; assumption.
Defined.

(** C10.  On a source made of whitespace only (the empty one included) the
    scanner returns no token, [parse_precedence] returns at once, at any
    precedence, leaving the parser as built (no token read, no bytecode),
    and [interpret] of the empty bytecode prints nothing and ends with an
    empty stack: the pipeline raises nothing and leaves no value. *)
Theorem blank_source (source : string) :
  all_space source = true ->
  simple_scan source = inr [] /\
  (forall fuel precedence,
      parse_precedence (S fuel) precedence (PrattParser_init [])
      = Returned (PrattParser_init [])) /\
  parse [] = Returned (PrattParser_init []) /\
  interpret [] = Finished [] [] /\
  main source = Interpreted (PrattParser_init []) (Finished [] []).
Proof.
  intros H.
  assert (Hs : simple_scan source = inr []).
  { unfold simple_scan. apply scan_loop_spaces, H. }
  repeat split; try reflexivity.
  - exact Hs.
  - unfold main. rewrite Hs. reflexivity.
Qed.

Lemma blank_source_witness :
  all_space "  " = true /\
  main "  " = Interpreted (PrattParser_init []) (Finished [] []).
Proof.
  split; [reflexivity|]. apply (blank_source "  "). reflexivity.
Defined.

(** C2.  For the source [1 + 2 * 3 + 4] the parser emits CONST 1, CONST 2,
    CONST 3, MUL, ADD, CONST 4, ADD, and the interpreter goes through the
    stacks [1], [1,2], [1,2,3], [1,6], [7], [7,4], [11], one per
    instruction, ending with the single value 11. *)
Theorem worked_scenario :
  exists parser printed,
    main "1 + 2 * 3 + 4" = Interpreted parser (Finished [11] printed) /\
    bytecode parser
    = [ConstantInstruction 1; ConstantInstruction 2; ConstantInstruction 3;
       MultiplyInstruction; AddInstruction; ConstantInstruction 4;
       AddInstruction] /\
    map instruction_str (bytecode parser)
    = map Some
        ["CONST 1"; "CONST 2"; "CONST 3"; "MUL"; "ADD"; "CONST 4"; "ADD"]%string
    /\
    map fst printed = bytecode parser /\
    map snd printed
    = [[1]; [1; 2]; [1; 2; 3]; [1; 6]; [7]; [7; 4]; [11]] /\
    map stack_str (map snd printed)
    = map Some
        ["[ 1 ]"; "[ 1 ][ 2 ]"; "[ 1 ][ 2 ][ 3 ]"; "[ 1 ][ 6 ]"; "[ 7 ]";
         "[ 7 ][ 4 ]"; "[ 11 ]"]%string.
Proof.
  eexists. eexists. split; [vm_compute; reflexivity|].
  repeat split; reflexivity.
Qed.

(** ** Parser: well-formed expressions *)

Lemma skipn_cons_nth {A : Type} (n : nat) (l rest : list A) (t : A) :
  skipn n l = t :: rest ->
  nth_error l n = Some t /\ (n < List.length l)%nat /\ skipn (S n) l = rest.
Proof.
  revert l. induction n as [|n IH]; intros l H.
  - destruct l as [|x l]; [discriminate|]. simpl in H. injection H as -> ->.
    simpl. repeat split. lia.
  - destruct l as [|x l]; [discriminate|]. simpl in H.
    destruct (IH l H) as (H1 & H2 & H3). simpl. repeat split; auto. lia.
Qed.

Lemma py_index_nth {A : Type} (l : list A) (i : Z) :
  0 <= i < Z.of_nat (List.length l) ->
  py_index l i = nth_error l (Z.to_nat i).
Proof.
  intros H. unfold py_index.
  generalize dependent (Z.of_nat (List.length l)). intros n H.
  replace ((0 <=? i) && (i <? n)) with true by lia. reflexivity.
Qed.

Lemma ahead_cons (self : PrattParser) (t : Token) (rest : list Token) :
  0 <= current self -> ahead self = t :: rest ->
  current self < len_tokens self /\
  py_index (tokens self) (current self) = Some t /\
  (forall self', tokens self' = tokens self ->
                 current self' = current self + 1 -> ahead self' = rest) /\
  (forall self', tokens self' = tokens self ->
                 current self' = current self -> ahead self' = t :: rest).
Proof.
  unfold ahead, len_tokens. intros H0 H.
  destruct (skipn_cons_nth _ _ _ _ H) as (Hn & Hl & Hs).
  assert (Hlt : current self < Z.of_nat (List.length (tokens self))) by lia.
  split; [exact Hlt|]. split; [|split].
  - rewrite py_index_nth by lia. exact Hn.
  - intros self' Ht Hc. rewrite Ht, Hc.
    replace (Z.to_nat (current self + 1)) with (S (Z.to_nat (current self)))
      by lia.
    exact Hs.
  - intros self' Ht Hc. rewrite Ht, Hc. exact H.
Qed.

Lemma ahead_nil (self : PrattParser) :
  0 <= current self -> ahead self = [] -> len_tokens self <= current self.
Proof.
  unfold ahead, len_tokens. intros H0 H.
  apply (f_equal (@List.length Token)) in H. rewrite length_skipn in H.
  simpl in H. lia.
Qed.

Lemma moved_trans (a b c : PrattParser)
  (e1 e2 : list BytecodeInstruction) (r1 r2 : list Token) :
  moved a b e1 r1 -> moved b c e2 r2 -> moved a c (e1 ++ e2) r2.
Proof.
  unfold moved. intros (Ht1 & _ & _ & Hb1) (Ht2 & Hc2 & Ha2 & Hb2).
  repeat split; try congruence.
  rewrite Hb2, Hb1, app_assoc. reflexivity.
Qed.

Lemma lands_after (a b : PrattParser) (o : Outcome)
  (e1 e2 : list BytecodeInstruction) (r1 r2 : list Token) :
  moved a b e1 r1 -> lands b o e2 r2 -> lands a o (e1 ++ e2) r2.
Proof.
  intros M (c & Ho & M'). exists c. split; [exact Ho|].
  eapply moved_trans; eassumption.
Qed.

Lemma digit_token_int (d : Digit) :
  py_int (lexeme (digit_token d)) = Some (digit_value d).
Proof. destruct d; reflexivity. Qed.

Lemma number_lands (self : PrattParser) (d : Digit) (rest : list Token) :
  0 <= current self -> ahead self = digit_token d :: rest ->
  lands self (number self) [ConstantInstruction (digit_value d)] rest.
Proof.
  intros H0 Ha. destruct (ahead_cons _ _ _ H0 Ha) as (Hlt & Hi & Hn & _).
  unfold number.
  replace (current self >=? len_tokens self) with false by lia.
  unfold subscript, set_current. cbn [tokens current bytecode reads].
  replace (current self + 1 - 1) with (current self) by lia.
  rewrite Hi, digit_token_int.
  eexists. split; [reflexivity|].
  unfold moved, emit. cbn [tokens current bytecode reads].
  repeat split; [lia|]. apply Hn; reflexivity.
Qed.

Lemma infix_loop_stops (fuel : nat) (precedence : Z) (self : PrattParser) :
  0 <= current self ->
  match ahead self with
  | [] => True
  | t :: _ => value (kind t) < precedence
  end ->
  lands self (infix_loop (S fuel) precedence self) [] (ahead self).
Proof.
  intros H0 Hq. rewrite infix_loop_eq.
  destruct (ahead self) as [|t rest] eqn:Ha.
  - pose proof (ahead_nil _ H0 Ha) as Hge.
    replace (current self <? len_tokens self) with false by lia.
    exists self. split; [reflexivity|].
    unfold moved. rewrite app_nil_r. auto.
  - destruct (ahead_cons _ _ _ H0 Ha) as (Hlt & Hi & _ & Hs).
    replace (current self <? len_tokens self) with true by lia.
    unfold subscript at 1. rewrite Hi.
    replace (precedence <=? value (kind t)) with false by lia.
    eexists. split; [reflexivity|].
    unfold moved. cbn [tokens current bytecode reads].
    rewrite app_nil_r. repeat split; [exact H0|]. apply Hs; reflexivity.
Qed.

(** [parse_precedence] on a digit: the prefix call emits its constant and
    the loop takes over. *)
Lemma parse_precedence_digit (fuel : nat) (precedence : Z)
  (self : PrattParser) (d : Digit) (rest : list Token) :
  0 <= current self -> ahead self = digit_token d :: rest ->
  exists self',
    parse_precedence (S fuel) precedence self
    = infix_loop fuel precedence self' /\
    moved self self' [ConstantInstruction (digit_value d)] rest.
Proof.
  intros H0 Ha. destruct (ahead_cons _ _ _ H0 Ha) as (Hlt & Hi & _ & Hs).
  rewrite parse_precedence_eq.
  replace (current self >=? len_tokens self) with false by lia.
  unfold subscript at 1. rewrite Hi. cbn [digit_token kind jumptable fst].
  match goal with
  | |- context [jump_call fuel number_method ?s] =>
      destruct (number_lands s d rest) as (self' & Hn & M)
  end.
  - exact H0.
  - apply Hs; reflexivity.
  - exists self'. cbn [jump_call]. rewrite Hn. split; [reflexivity|exact M].
Qed.

Lemma moved_emit (i : BytecodeInstruction) (self : PrattParser) :
  0 <= current self -> moved self (emit i self) [i] (ahead self).
Proof. intros H. unfold moved, emit, ahead. simpl. auto. Qed.

(** One turn of the loop on an operator: [binary] consumes it, parses the
    right operand one precedence level up, emits the instruction, and the
    loop goes on. *)
Lemma infix_loop_operator (fuel : nat) (precedence : Z) (self : PrattParser)
  (op : Token) (rest : list Token) :
  0 <= current self -> ahead self = op :: rest ->
  snd (jumptable (kind op)) = Some binary_method ->
  precedence <= value (kind op) ->
  exists self',
    moved self self' [] rest /\
    infix_loop (S (S fuel)) precedence self
    = and_then
        (and_then
           (parse_precedence fuel (value (increase (kind op))) self')
           (fun self3 =>
              match kind op with
              | MULTIPLY => Returned (emit MultiplyInstruction self3)
              | PLUS => Returned (emit AddInstruction self3)
              | NUMBER => Returned self3
              end))
        (infix_loop (S fuel) precedence).
Proof.
  intros H0 Ha Hj Hp. destruct (ahead_cons _ _ _ H0 Ha) as (Hlt & Hi & Hn & _).
  rewrite infix_loop_eq.
  replace (current self <? len_tokens self) with true by lia.
  unfold subscript. cbn [tokens current bytecode reads].
  rewrite Hi. replace (precedence <=? value (kind op)) with true by lia.
  rewrite Hj. cbn [jump_call]. rewrite binary_eq.
  unfold len_tokens in *. cbn [tokens current bytecode reads].
  replace (current self >=? Z.of_nat (List.length (tokens self)))
    with false by lia.
  unfold subscript, set_current. cbn [tokens current bytecode reads].
  rewrite Hi.
  eexists. split; [|reflexivity].
  unfold moved. cbn [tokens current bytecode reads]. rewrite app_nil_r.
  repeat split; [lia|]. apply Hn; reflexivity.
Qed.

Lemma infix_loop_star (fuel : nat) (precedence : Z) (self : PrattParser)
  (d : Digit) (rest : list Token) :
  0 <= current self ->
  ahead self = star_token :: digit_token d :: rest ->
  operator_first rest -> precedence <= 1 ->
  exists self',
    infix_loop (S (S (S (S fuel)))) precedence self
    = infix_loop (S (S (S fuel))) precedence self' /\
    moved self self'
      [ConstantInstruction (digit_value d); MultiplyInstruction] rest.
Proof.
  intros H0 Ha Hq Hp.
  destruct (infix_loop_operator (S (S fuel)) precedence self star_token
              (digit_token d :: rest) H0 Ha eq_refl Hp)
    as (s1 & M1 & E).
  rewrite E. clear E. cbn [star_token kind increase].
  change (value (increase MULTIPLY)) with 2.
  destruct M1 as (Ht1 & Hc1 & Ha1 & Hb1).
  destruct (parse_precedence_digit (S fuel) 2 s1 d rest Hc1 Ha1)
    as (s2 & E & M2).
  rewrite E. clear E.
  destruct M2 as (Ht2 & Hc2 & Ha2 & Hb2).
  destruct (infix_loop_stops fuel 2 s2 Hc2) as (s3 & E & M3).
  { rewrite Ha2. destruct rest as [|t rest]; [exact I|].
    unfold operator_first in Hq. lia. }
  rewrite E. clear E. cbn [and_then].
  destruct M3 as (Ht3 & Hc3 & Ha3 & Hb3).
  eexists. split; [reflexivity|].
  unfold moved, emit, ahead in *. cbn [tokens current bytecode reads].
  repeat split; try congruence.
  rewrite Hb3, Hb2, Hb1, !app_nil_r, <- app_assoc. reflexivity.
Qed.

Lemma star_plus_operator_first (ds : list Digit) (ts : list Product) :
  operator_first (star_tail ds ++ plus_tail ts).
Proof.
  destruct ds as [|d ds]; [destruct ts as [|t ts]|]; simpl; try exact I; lia.
Qed.

Lemma infix_loop_stars (ds : list Digit) :
  forall (fuel : nat) (self : PrattParser) (ts : list Product),
    0 <= current self ->
    ahead self = star_tail ds ++ plus_tail ts ->
    enough fuel self ->
    lands self (infix_loop fuel 1 self) (stars_code ds) (plus_tail ts).
Proof.
  induction ds as [|d ds IH]; intros fuel self ts H0 Ha E.
  - simpl in Ha. unfold enough in E.
    destruct fuel as [|fuel]; [lia|].
    rewrite <- Ha. apply infix_loop_stops; [exact H0|].
    rewrite Ha. destruct ts as [|t ts]; simpl; [exact I | lia].
  - cbn [star_tail flat_map app] in Ha. fold (star_tail ds) in Ha.
    unfold enough in E. rewrite Ha in E. cbn [List.length] in E.
    destruct fuel as [|[|[|[|fuel]]]]; try lia.
    destruct (infix_loop_star fuel 1 self d _ H0 Ha
                (star_plus_operator_first ds ts)) as (s1 & Eq & M); [lia|].
    rewrite Eq.
    change (stars_code (d :: ds))
      with ([ConstantInstruction (digit_value d); MultiplyInstruction]
              ++ stars_code ds).
    apply lands_after with s1 (star_tail ds ++ plus_tail ts); [exact M|].
    destruct M as (_ & Hc & Ha' & _).
    apply IH; [exact Hc | exact Ha' |].
    unfold enough. rewrite Ha'. lia.
Qed.

(** At precedence 1, [parse_precedence] takes one whole product. *)
Lemma parse_precedence_product (fuel : nat) (self : PrattParser)
  (t : Product) (ts : list Product) :
  0 <= current self ->
  ahead self = product_tokens t ++ plus_tail ts ->
  enough fuel self ->
  lands self (parse_precedence fuel 1 self) (product_code t) (plus_tail ts).
Proof.
  intros H0 Ha E. destruct t as [d ds].
  unfold product_tokens in Ha. cbn [fst snd app] in Ha.
  unfold enough in E. rewrite Ha in E. cbn [List.length] in E.
  destruct fuel as [|fuel]; [lia|].
  destruct (parse_precedence_digit fuel 1 self d _ H0 Ha) as (s1 & Eq & M).
  rewrite Eq.
  change (product_code (d, ds))
    with ([ConstantInstruction (digit_value d)] ++ stars_code ds).
  apply lands_after with s1 (star_tail ds ++ plus_tail ts); [exact M|].
  destruct M as (_ & Hc & Ha' & _).
  apply infix_loop_stars; [exact Hc | exact Ha' |].
  unfold enough. rewrite Ha'. lia.
Qed.

Lemma infix_loop_plus (fuel : nat) (self : PrattParser) (t : Product)
  (ts : list Product) :
  0 <= current self ->
  ahead self = plus_token :: product_tokens t ++ plus_tail ts ->
  enough (S (S fuel)) self ->
  exists self',
    infix_loop (S (S fuel)) 0 self = infix_loop (S fuel) 0 self' /\
    moved self self' (product_code t ++ [AddInstruction]) (plus_tail ts).
Proof.
  intros H0 Ha E.
  destruct (infix_loop_operator fuel 0 self plus_token _ H0 Ha eq_refl)
    as (s1 & M1 & Eq); [simpl; lia|].
  rewrite Eq. clear Eq. cbn [plus_token kind].
  change (value (increase PLUS)) with 1.
  destruct M1 as (Ht1 & Hc1 & Ha1 & Hb1).
  destruct (parse_precedence_product fuel s1 t ts Hc1 Ha1)
    as (s2 & Eq & M2).
  { unfold enough in *. rewrite Ha in E. rewrite Ha1.
    cbn [List.length] in E. lia. }
  rewrite Eq. clear Eq. cbn [and_then].
  destruct M2 as (Ht2 & Hc2 & Ha2 & Hb2).
  eexists. split; [reflexivity|].
  unfold moved, emit, ahead in *. cbn [tokens current bytecode reads].
  repeat split; try congruence.
  rewrite Hb2, Hb1, !app_nil_r, <- app_assoc. reflexivity.
Qed.

Lemma infix_loop_pluses (ts : list Product) :
  forall (fuel : nat) (self : PrattParser),
    0 <= current self ->
    ahead self = plus_tail ts ->
    enough fuel self ->
    lands self (infix_loop fuel 0 self) (pluses_code ts) [].
Proof.
  induction ts as [|t ts IH]; intros fuel self H0 Ha E.
  - simpl in Ha. unfold enough in E.
    destruct fuel as [|fuel]; [lia|].
    pose proof (infix_loop_stops fuel 0 self H0) as L.
    rewrite Ha in L. apply L. exact I.
  - cbn [plus_tail flat_map] in Ha. fold (plus_tail ts) in Ha.
    cbn [app] in Ha.
    pose proof E as E'. unfold enough in E'. rewrite Ha in E'.
    cbn [List.length] in E'. rewrite length_app in E'.
    destruct fuel as [|[|fuel]]; try lia.
    destruct (infix_loop_plus fuel self t ts H0 Ha E) as (s1 & Eq & M).
    rewrite Eq.
    change (pluses_code (t :: ts))
      with ((product_code t ++ [AddInstruction]) ++ pluses_code ts).
    apply lands_after with s1 (plus_tail ts); [exact M|].
    destruct M as (_ & Hc & Ha' & _).
    apply IH; [exact Hc | exact Ha' |].
    unfold enough. rewrite Ha'. lia.
Qed.

Lemma infix_loop_sum (ds : list Digit) :
  forall (fuel : nat) (self : PrattParser) (ts : list Product),
    0 <= current self ->
    ahead self = star_tail ds ++ plus_tail ts ->
    enough fuel self ->
    lands self (infix_loop fuel 0 self) (stars_code ds ++ pluses_code ts) [].
Proof.
  induction ds as [|d ds IH]; intros fuel self ts H0 Ha E.
  - simpl in Ha |- *. apply infix_loop_pluses; assumption.
  - cbn [star_tail flat_map app] in Ha. fold (star_tail ds) in Ha.
    pose proof E as E'. unfold enough in E'. rewrite Ha in E'.
    cbn [List.length] in E'.
    destruct fuel as [|[|[|[|fuel]]]]; try lia.
    destruct (infix_loop_star fuel 0 self d _ H0 Ha
                (star_plus_operator_first ds ts)) as (s1 & Eq & M); [lia|].
    rewrite Eq.
    change (stars_code (d :: ds) ++ pluses_code ts)
      with ([ConstantInstruction (digit_value d); MultiplyInstruction]
              ++ (stars_code ds ++ pluses_code ts)).
    apply lands_after with s1 (star_tail ds ++ plus_tail ts); [exact M|].
    destruct M as (_ & Hc & Ha' & _).
    apply IH; [exact Hc | exact Ha' |].
    unfold enough. rewrite Ha'. lia.
Qed.

(** The parser on the tokens of a sum of products: everything is consumed
    and the bytecode is [sum_code]. *)
Lemma parse_sum_tokens (e : Sum) :
  lands (PrattParser_init (sum_tokens e)) (parse (sum_tokens e))
        (sum_code e) [].
Proof.
  destruct e as [[d ds] ts]. rewrite parse_unfold.
  match goal with
  | |- lands ?s (parse_precedence (S ?f) _ _) _ _ =>
      destruct (parse_precedence_digit f 0 s d (star_tail ds ++ plus_tail ts)
                  (Z.le_refl 0) eq_refl) as (s1 & Eq & M)
  end.
  rewrite Eq.
  unfold sum_code, product_code. cbn [fst snd].
  change (ConstantInstruction (digit_value d) :: stars_code ds)
    with ([ConstantInstruction (digit_value d)] ++ stars_code ds).
  rewrite <- app_assoc.
  apply lands_after with s1 (star_tail ds ++ plus_tail ts); [exact M|].
  destruct M as (_ & Hc & Ha' & _).
  apply infix_loop_sum; [exact Hc | exact Ha' |].
  unfold enough. rewrite Ha'.
  unfold sum_tokens, product_tokens. cbn [fst snd app List.length]. lia.
Qed.

(** ** The bytecode of an expression is the postfix form of its tree *)

Lemma product_fold_postfix (ds : list Digit) (a : Ast) :
  ast_postfix (fold_left (fun l d => Mul l (Num d)) ds a)
  = ast_postfix a ++ stars_code ds.
Proof.
  revert a. induction ds as [|d ds IH]; intros a; simpl.
  - rewrite app_nil_r. reflexivity.
  - rewrite IH. simpl. rewrite <- app_assoc. reflexivity.
Qed.

Lemma product_code_postfix (t : Product) :
  product_code t = ast_postfix (product_ast t).
Proof.
  destruct t as [d ds]. unfold product_ast, product_code. cbn [fst snd].
  rewrite product_fold_postfix. reflexivity.
Qed.

Lemma sum_fold_postfix (ts : list Product) (a : Ast) :
  ast_postfix (fold_left (fun l t => Add l (product_ast t)) ts a)
  = ast_postfix a ++ pluses_code ts.
Proof.
  revert a. induction ts as [|t ts IH]; intros a.
  - simpl. rewrite app_nil_r. reflexivity.
  - cbn [fold_left]. rewrite IH. cbn [ast_postfix].
    unfold pluses_code. cbn [flat_map].
    rewrite product_code_postfix, <- !app_assoc. reflexivity.
Qed.

Lemma sum_code_postfix (e : Sum) : sum_code e = ast_postfix (sum_ast e).
Proof.
  destruct e as [t ts]. unfold sum_code, sum_ast. cbn [fst snd].
  rewrite sum_fold_postfix, product_code_postfix. reflexivity.
Qed.

Lemma intermediate_last (a : Ast) :
  forallb printable (intermediate a) = true -> printable (ast_value a) = true.
Proof.
  destruct a as [d | l r | l r]; cbn [intermediate ast_value];
    rewrite ?forallb_app; cbn [forallb]; intros H;
    repeat (apply andb_prop in H; destruct H as [? H]); assumption.
Qed.

(** Running the postfix form of a tree pushes its value, unless one of
    the values computed on the way cannot be printed: the run then stops at
    the print of the stack that holds it. *)
Lemma interpret_loop_postfix (a : Ast) :
  forall (rest : list BytecodeInstruction) (stack : list Z)
         (printed : list Snapshot),
    forallb printable stack = true ->
    if forallb printable (intermediate a)
    then exists printed',
        interpret_loop (ast_postfix a ++ rest) stack printed
        = interpret_loop rest (stack ++ [ast_value a]) printed'
    else exists stack' printed',
        interpret_loop (ast_postfix a ++ rest) stack printed
        = Failed UnprintableInteger stack' printed'.
Proof.
  induction a as [d | l IHl r IHr | l IHl r IHr]; intros rest stack printed H.
  - cbn [intermediate ast_postfix ast_value app forallb].
    rewrite interpret_loop_step. unfold step. cbn [execute isinstance].
    rewrite forallb_app, H. cbn [forallb andb].
    destruct (printable (digit_value d)); cbn [andb]; eexists; try eexists;
      reflexivity.
  - cbn [intermediate ast_postfix ast_value]. rewrite <- !app_assoc.
    rewrite !forallb_app. cbn [forallb].
    specialize (IHl (ast_postfix r ++ [AddInstruction] ++ rest) stack printed H).
    destruct (forallb printable (intermediate l)) eqn:Pl; cbn [andb];
      [|exact IHl].
    destruct IHl as [p1 ->].
    assert (H1 : forallb printable (stack ++ [ast_value l]) = true).
    { rewrite forallb_app, H. cbn [forallb andb].
      rewrite (intermediate_last l Pl). reflexivity. }
    specialize (IHr ([AddInstruction] ++ rest) (stack ++ [ast_value l]) p1 H1).
    destruct (forallb printable (intermediate r)) eqn:Pr; cbn [andb];
      [|exact IHr].
    destruct IHr as [p2 ->].
    cbn [app]. rewrite interpret_loop_step. unfold step.
    rewrite <- app_assoc. cbn [app].
    destruct (execute_binary_operands stack (ast_value l) (ast_value r))
      as [-> _].
    rewrite forallb_app, H. cbn [forallb andb].
    destruct (printable (ast_value l + ast_value r)); cbn [andb];
      eexists; try eexists; reflexivity.
  - cbn [intermediate ast_postfix ast_value]. rewrite <- !app_assoc.
    rewrite !forallb_app. cbn [forallb].
    specialize (IHl (ast_postfix r ++ [MultiplyInstruction] ++ rest) stack
                  printed H).
    destruct (forallb printable (intermediate l)) eqn:Pl; cbn [andb];
      [|exact IHl].
    destruct IHl as [p1 ->].
    assert (H1 : forallb printable (stack ++ [ast_value l]) = true).
    { rewrite forallb_app, H. cbn [forallb andb].
      rewrite (intermediate_last l Pl). reflexivity. }
    specialize (IHr ([MultiplyInstruction] ++ rest) (stack ++ [ast_value l])
                  p1 H1).
    destruct (forallb printable (intermediate r)) eqn:Pr; cbn [andb];
      [|exact IHr].
    destruct IHr as [p2 ->].
    cbn [app]. rewrite interpret_loop_step. unfold step.
    rewrite <- app_assoc. cbn [app].
    destruct (execute_binary_operands stack (ast_value l) (ast_value r))
      as [_ ->].
    rewrite forallb_app, H. cbn [forallb andb].
    destruct (printable (ast_value l * ast_value r)); cbn [andb];
      eexists; try eexists; reflexivity.
Qed.

Lemma interpret_postfix (a : Ast) :
  if forallb printable (intermediate a)
  then exists printed,
      interpret (ast_postfix a) = Finished [ast_value a] printed /\
      map fst printed = ast_postfix a
  else exists stack printed,
      interpret (ast_postfix a) = Failed UnprintableInteger stack printed.
Proof.
  unfold interpret.
  pose proof (interpret_loop_postfix a [] [] [] eq_refl) as E.
  rewrite app_nil_r in E.
  destruct (forallb printable (intermediate a)); [|exact E].
  destruct E as [printed E]. cbn [interpret_loop app] in E.
  pose proof (interpret_loop_outcome (ast_postfix a) [] []) as O.
  rewrite E in O. destruct O as (new & -> & Hf & _).
  exists new. split; [exact E | exact Hf].
Qed.

(** ** Size of the values of an expression *)











Lemma main_spells (source : string) (e : Sum) :
  spells source e ->
  exists parser run,
    main source = Interpreted parser run /\
    tokens parser = sum_tokens e /\
    ahead parser = [] /\
    bytecode parser = ast_postfix (sum_ast e) /\
    if forallb printable (intermediate (sum_ast e))
    then exists printed,
        run = Finished [ast_value (sum_ast e)] printed /\
        map fst printed = bytecode parser
    else exists stack printed,
        run = Failed UnprintableInteger stack printed.
Proof.
  intros H. unfold main. rewrite (simple_scan_spells source e H).
  destruct (parse_sum_tokens e) as (parser & -> & Ht & _ & Ha & Hb).
  cbn [PrattParser_init bytecode tokens app] in Hb, Ht.
  rewrite sum_code_postfix in Hb.
  exists parser, (interpret (bytecode parser)).
  repeat (split; [first [reflexivity | assumption]|]).
  rewrite Hb. pose proof (interpret_postfix (sum_ast e)) as P.
  destruct (forallb printable (intermediate (sum_ast e))); exact P.
Qed.




(** ** The infix slot of NUMBER *)

(** C8 (as stated, refuted).  The source [1 2] scans to two NUMBER tokens
    and the parse loop raises at the infix call on the second one. *)
Lemma infix_failure_reached :
  simple_scan "1 2" = inr [digit_token D1; digit_token D2] /\
  main "1 2"
  = ParseFailed NoInfixParselet
      (mkParser [digit_token D1; digit_token D2] 1 [ConstantInstruction 1]
         [(0, 0); (0, 1); (1, 1); (1, 1)]).
Proof. split; reflexivity. Qed.

Lemma infix_loop_number (fuel : nat) (precedence : Z) (self : PrattParser)
  (t : Token) :
  0 <= current self < len_tokens self ->
  py_index (tokens self) (current self) = Some t ->
  kind t = NUMBER -> precedence <= 2 ->
  exists self',
    infix_loop (S fuel) precedence self = Raised NoInfixParselet self' /\
    tokens self' = tokens self /\
    current self' = current self /\
    bytecode self' = bytecode self.
Proof.
  intros Hc Hi Hk Hp. rewrite infix_loop_eq.
  replace (current self <? len_tokens self) with true by lia.
  unfold subscript. cbn [tokens current bytecode reads].
  rewrite Hi, Hk. cbn [value].
  replace (precedence <=? 2) with true by lia.
  cbn [jumptable snd]. eexists. split; [reflexivity|].
  repeat split; reflexivity.
Qed.

(** C8 (amended).  NUMBER is the one kind without infix handler.  A NUMBER
    token met by the parse loop, at any precedence up to 2, makes the loop
    raise at the infix call, nothing further being consumed or emitted.
    This does happen: when the first two tokens of the input are both
    NUMBER and [int] converts the lexeme of the first, as it does every
    decimal digit, parsing raises it after emitting the constant of the
    first; when [int] rejects that lexeme, its error is raised before,
    with nothing emitted.  It does not happen on a well-formed expression,
    which parses and is handed to the interpreter. *)
Theorem no_infix_parselet :
  snd (jumptable NUMBER) = None /\
  (forall (fuel : nat) (precedence : Z) (self : PrattParser) (t : Token),
      0 <= current self < len_tokens self ->
      py_index (tokens self) (current self) = Some t ->
      kind t = NUMBER -> precedence <= 2 ->
      exists self',
        infix_loop (S fuel) precedence self = Raised NoInfixParselet self' /\
        tokens self' = tokens self /\
        current self' = current self /\
        bytecode self' = bytecode self) /\
  (forall (source : string) (t1 t2 : Token) (rest : list Token),
      simple_scan source = inr (t1 :: t2 :: rest) ->
      kind t1 = NUMBER -> kind t2 = NUMBER ->
      exists parser,
        current parser = 1 /\
        match py_int (lexeme t1) with
        | Some v =>
            main source = ParseFailed NoInfixParselet parser /\
            bytecode parser = [ConstantInstruction v]
        | None =>
            main source = ParseFailed InvalidNumberLiteral parser /\
            bytecode parser = []
        end) /\
  (forall (source : string) (e : Sum),
      spells source e ->
      exists parser run, main source = Interpreted parser run).
Proof.
  split; [reflexivity|]. split; [exact infix_loop_number|]. split.
  - intros source t1 t2 rest Hs Hk1 Hk2.
    unfold main. rewrite Hs, parse_unfold, parse_precedence_eq.
    unfold PrattParser_init, len_tokens, subscript, number, set_current,
      subscript.
    cbn [tokens current bytecode reads].
    assert (H0 : py_index (t1 :: t2 :: rest) 0 = Some t1).
    { rewrite py_index_nth; [reflexivity|]. cbn [List.length]. lia. }
    assert (H1 : py_index (t1 :: t2 :: rest) 1 = Some t2).
    { rewrite py_index_nth; [reflexivity|]. cbn [List.length]. lia. }
    assert (Hlen : 2 <= Z.of_nat (List.length (t1 :: t2 :: rest))).
    { cbn [List.length]. lia. }
    replace (2 * List.length (t1 :: t2 :: rest))%nat
      with (S (2 * List.length rest + 3))%nat by (cbn [List.length]; lia).
    rewrite H0, Hk1. cbn [jumptable fst jump_call].
    unfold number, len_tokens, subscript, set_current.
    cbn [tokens current bytecode reads].
    change (0 + 1 - 1) with 0. rewrite H0.
    revert Hlen. generalize (Z.of_nat (List.length (t1 :: t2 :: rest))).
    intros n Hn.
    replace (0 >=? n) with false by lia.
    destruct (py_int (lexeme t1)) as [v|]; cbn [and_then].
    2:{ eexists. split; [|split; reflexivity]. reflexivity. }
    match goal with
    | |- context [infix_loop (S ?f) 0 ?s] =>
        destruct (infix_loop_number f 0 s t2) as (p & E & _ & Hc & Hb)
    end.
    + unfold len_tokens, emit. cbn [tokens current]. cbn [List.length]. lia.
    + exact H1.
    + exact Hk2.
    + lia.
    + rewrite E. exists p. split; [exact Hc|]. split; [reflexivity|exact Hb].
  - intros source e H.
    destruct (main_spells source e H) as (parser & run & Hm & _).
    exists parser, run. exact Hm.
Qed.

Lemma no_infix_parselet_witness :
  simple_scan "12" = inr [digit_token D1; digit_token D2] /\
  exists parser,
    main "12" = ParseFailed NoInfixParselet parser /\
    bytecode parser = [ConstantInstruction 1].
Proof.
  split; [reflexivity|].
  destruct no_infix_parselet as (_ & _ & H & _).
  destruct (H "12"%string (digit_token D1) (digit_token D2) [])
    as (parser & _ & Hm & Hb); try reflexivity.
  exists parser. split; assumption.
Defined.

(** * Further properties *)

(** ** Interpreter: composition, frame, stack height *)

Lemma interpret_loop_app (bc1 bc2 : list BytecodeInstruction) :
  forall (stack : list Z) (printed : list Snapshot),
    interpret_loop (bc1 ++ bc2) stack printed
    = match interpret_loop bc1 stack printed with
      | Finished stack' printed' => interpret_loop bc2 stack' printed'
      | Failed e stack' printed' => Failed e stack' printed'
      end.
Proof.
  induction bc1 as [|i bc1 IH]; intros stack printed.
  - reflexivity.
  - cbn [app]. rewrite !interpret_loop_step.
    destruct (step i stack) as [[e s']|s']; [reflexivity | apply IH].
Qed.

(** X1.  Running a concatenation of two bytecode lists is running the
    first and, if it does not fail, the second from the stack and the
    printed lines the first one left; a failure in the first stops the run
    and nothing of the second is executed. *)
Theorem interpret_sequence (bc1 bc2 : list BytecodeInstruction) :
  interpret (bc1 ++ bc2)
  = match interpret bc1 with
    | Finished stack printed => interpret_loop bc2 stack printed
    | Failed e stack printed => Failed e stack printed
    end.
Proof. apply interpret_loop_app. Qed.

Lemma interpret_loop_printed (bytecode : list BytecodeInstruction) :
  forall (stack : list Z) (printed : list Snapshot),
    interpret_loop bytecode stack printed
    = match interpret_loop bytecode stack [] with
      | Finished stack' new => Finished stack' (printed ++ new)
      | Failed e stack' new => Failed e stack' (printed ++ new)
      end.
Proof.
  induction bytecode as [|i bytecode IH]; intros stack printed.
  - cbn [interpret_loop]. rewrite app_nil_r. reflexivity.
  - rewrite !interpret_loop_step.
    destruct (step i stack) as [[e s']|s'].
    + rewrite app_nil_r. reflexivity.
    + cbn [app]. rewrite (IH s' (printed ++ [(i, s')])), (IH s' [(i, s')]).
      destruct (interpret_loop bytecode s' []); rewrite <- app_assoc;
        reflexivity.
Qed.

Lemma pop_below {A : Type} (below l r : list A) (x : A) :
  pop l = Some (x, r) -> pop (below ++ l) = Some (x, below ++ r).
Proof.
  intros H. induction below as [|y below IH]; simpl.
  - exact H.
  - rewrite IH. reflexivity.
Qed.

Lemma execute_below (i : BytecodeInstruction) (below stack stack' : list Z) :
  execute i stack = inr stack' ->
  execute i (below ++ stack) = inr (below ++ stack').
Proof.
  destruct i; unfold execute; cbn [isinstance].
  - intros E. injection E as <-. rewrite app_assoc. reflexivity.
  - destruct (pop stack) as [[b s1]|] eqn:E1; [|discriminate].
    destruct (pop s1) as [[a s2]|] eqn:E2; [|discriminate].
    intros E. injection E as <-.
    rewrite (pop_below below _ _ _ E1), (pop_below below _ _ _ E2), app_assoc.
    reflexivity.
  - destruct (pop stack) as [[b s1]|] eqn:E1; [|discriminate].
    destruct (pop s1) as [[a s2]|] eqn:E2; [|discriminate].
    intros E. injection E as <-.
    rewrite (pop_below below _ _ _ E1), (pop_below below _ _ _ E2), app_assoc.
    reflexivity.
Qed.

Lemma step_below (i : BytecodeInstruction) (below stack stack' : list Z) :
  forallb printable below = true ->
  step i stack = inr stack' ->
  step i (below ++ stack) = inr (below ++ stack').
Proof.
  intros Hb E. apply step_ok in E. destruct E as [E P].
  unfold step. rewrite (execute_below i below stack stack' E).
  rewrite forallb_app, Hb, P. reflexivity.
Qed.

(** X2.  Values below the ones a run uses are never touched.  The stack is
    printed whole after every instruction, so the values below must be
    within the digit limit of [str]; then, when a bytecode list runs to the
    end from [stack], it also runs to the end from [below ++ stack], leaves
    [below] under the same result and prints the same lines with [below]
    under each stack. *)
Theorem interpret_frame (bytecode : list BytecodeInstruction)
  (below stack stack' : list Z) (printed : list Snapshot) :
  forallb printable below = true ->
  interpret_loop bytecode stack [] = Finished stack' printed ->
  interpret_loop bytecode (below ++ stack) []
  = Finished (below ++ stack') (map (lift_snapshot below) printed).
Proof.
  intros Hb. revert stack stack' printed.
  induction bytecode as [|i bytecode IH]; intros stack stack' printed.
  - cbn [interpret_loop]. intros E. injection E as <- <-. reflexivity.
  - rewrite !interpret_loop_step.
    destruct (step i stack) as [[e s1]|s1] eqn:Ex; [discriminate|].
    rewrite (step_below i below stack s1 Hb Ex). cbn [app].
    rewrite (interpret_loop_printed bytecode s1 [(i, s1)]).
    rewrite (interpret_loop_printed bytecode (below ++ s1) [(i, below ++ s1)]).
    destruct (interpret_loop bytecode s1 []) as [s2 new | e s2 new] eqn:E1;
      [|discriminate].
    intros E. injection E as <- <-.
    rewrite (IH s1 s2 new E1). reflexivity.
Qed.

Lemma interpret_frame_witness :
  forallb printable [7; 8] = true /\
  interpret_loop [ConstantInstruction 2; MultiplyInstruction] [5] []
  = Finished [10] [(ConstantInstruction 2, [5; 2]); (MultiplyInstruction, [10])]
  /\
  interpret_loop [ConstantInstruction 2; MultiplyInstruction] ([7; 8] ++ [5]) []
  = Finished ([7; 8] ++ [10])
      [(ConstantInstruction 2, [7; 8; 5; 2]); (MultiplyInstruction, [7; 8; 10])].
Proof.
  split; [reflexivity|]. split; [reflexivity|].
  apply (interpret_frame [ConstantInstruction 2; MultiplyInstruction] [7; 8] [5]
           [10]
           [(ConstantInstruction 2, [5; 2]); (MultiplyInstruction, [10])]).
  - reflexivity.
  - reflexivity.
Defined.

Lemma pop_length {A : Type} (l : list A) :
  match pop l with
  | None => l = []
  | Some (_, r) => List.length l = S (List.length r)
  end.
Proof.
  induction l as [|x l IH]; simpl.
  - reflexivity.
  - destruct (pop l) as [[y r]|].
    + simpl. rewrite IH. reflexivity.
    + rewrite IH. reflexivity.
Qed.

Lemma execute_height (i : BytecodeInstruction) (stack : list Z) :
  match execute i stack with
  | inr stack' => final_height (List.length stack) [i]
                  = Some (List.length stack')
  | inl _ => final_height (List.length stack) [i] = None
  end.
Proof.
  destruct i; unfold execute; cbn [isinstance final_height].
  - rewrite length_app. simpl. f_equal. lia.
  - pose proof (pop_length stack) as H1.
    destruct (pop stack) as [[b s1]|]; [|rewrite H1; reflexivity].
    pose proof (pop_length s1) as H2.
    destruct (pop s1) as [[a s2]|].
    + rewrite H1, H2, length_app. simpl. f_equal. lia.
    + rewrite H1, H2. reflexivity.
  - pose proof (pop_length stack) as H1.
    destruct (pop stack) as [[b s1]|]; [|rewrite H1; reflexivity].
    pose proof (pop_length s1) as H2.
    destruct (pop s1) as [[a s2]|].
    + rewrite H1, H2, length_app. simpl. f_equal. lia.
    + rewrite H1, H2. reflexivity.
Qed.

Lemma final_height_cons (h : nat) (i : BytecodeInstruction)
  (rest : list BytecodeInstruction) :
  final_height h (i :: rest)
  = match final_height h [i] with
    | Some h' => final_height h' rest
    | None => None
    end.
Proof.
  destruct i; cbn [final_height]; try reflexivity;
    destruct (2 <=? h)%nat; reflexivity.
Qed.

Lemma interpret_loop_height (bytecode : list BytecodeInstruction) :
  forall (stack : list Z) (printed : list Snapshot),
    match interpret_loop bytecode stack printed with
    | Finished stack' _ =>
        final_height (List.length stack) bytecode = Some (List.length stack')
    | Failed e _ _ =>
        (e = StackUnderflow /\
         final_height (List.length stack) bytecode = None) \/
        e = UnprintableInteger
    end.
Proof.
  induction bytecode as [|i bytecode IH]; intros stack printed.
  - reflexivity.
  - rewrite final_height_cons, interpret_loop_step.
    pose proof (execute_height i stack) as H.
    destruct (step i stack) as [[e s']|s'] eqn:Ex.
    + apply step_error in Ex. destruct Ex as [Ex | [-> _]]; [|right; auto].
      rewrite Ex in H. rewrite H. apply execute_error in Ex.
      left. split; [apply Ex | reflexivity].
    + apply step_ok in Ex. destruct Ex as [Ex _]. rewrite Ex in H.
      rewrite H. apply IH.
Qed.


(** ** Scanner: what it accepts and what it ignores *)

Lemma scan_loop_result (source : string) :
  forall acc : list Token,
    match scan_loop acc source with
    | inr toks =>
        forallb accepted (visible_chars source) = true /\
        toks = acc ++ map char_token (visible_chars source)
    | inl e =>
        exists pre c post,
          e = UnrecognizedCharacter c /\
          visible_chars source = pre ++ c :: post /\
          forallb accepted pre = true /\
          accepted c = false
    end.
Proof.
  unfold visible_chars.
  induction source as [|c source IH]; intros acc; simpl.
  - rewrite app_nil_r. auto.
  - destruct (isspace c) eqn:Hs; simpl; [apply IH|].
    assert (Step : forall k,
               accepted c = true ->
               char_token c = mkToken (String c EmptyString) k ->
               match
                 scan_loop (acc ++ [mkToken (String c EmptyString) k]) source
               with
               | inr toks =>
                   accepted c
                   && forallb accepted
                        (filter (fun c0 => negb (isspace c0))
                           (list_ascii_of_string source)) = true /\
                   toks
                   = acc ++ char_token c
                       :: map char_token
                            (filter (fun c0 => negb (isspace c0))
                               (list_ascii_of_string source))
               | inl e =>
                   exists pre c0 post,
                     e = UnrecognizedCharacter c0 /\
                     c :: filter (fun c1 => negb (isspace c1))
                            (list_ascii_of_string source)
                     = pre ++ c0 :: post /\
                     forallb accepted pre = true /\
                     accepted c0 = false
               end).
    { intros k Hacc Hk. specialize (IH (acc ++ [mkToken (String c EmptyString) k])).
      destruct (scan_loop (acc ++ [mkToken (String c EmptyString) k]) source)
        as [e | toks].
      - destruct IH as (pre & c0 & post & He & Hv & Hp & Hc).
        exists (c :: pre), c0, post. rewrite Hv. simpl. rewrite Hacc. auto.
      - destruct IH as (Hall & ->). rewrite Hacc, Hk, <- app_assoc. auto. }
    destruct (isdigit c) eqn:Hd.
    { apply Step; unfold accepted, char_token; rewrite Hd; reflexivity. }
    destruct (code c =? 43) eqn:Hp.
    { apply Step; unfold accepted, char_token; rewrite Hd, Hp; reflexivity. }
    destruct (code c =? 42) eqn:Hm.
    { apply Step; unfold accepted, char_token; rewrite Hd, Hp, ?Hm;
        reflexivity. }
    exists [], c, (filter (fun c0 => negb (isspace c0))
                     (list_ascii_of_string source)).
    unfold accepted. rewrite Hd, Hp, Hm. auto.
Qed.

(** X4.  [simple_scan] succeeds exactly when every character that is not
    whitespace is a digit, [+] or [*]; it then returns one token per such
    character, in order, the lexeme being that character.  Otherwise it
    raises for the first character that is none of these, whatever
    follows. *)
Theorem simple_scan_result (source : string) :
  match simple_scan source with
  | inr toks =>
      forallb accepted (visible_chars source) = true /\
      toks = map char_token (visible_chars source) /\
      List.length toks = List.length (visible_chars source)
  | inl e =>
      exists pre c post,
        e = UnrecognizedCharacter c /\
        visible_chars source = pre ++ c :: post /\
        forallb accepted pre = true /\
        accepted c = false
  end.
Proof.
  unfold simple_scan. pose proof (scan_loop_result source []) as H.
  destruct (scan_loop [] source) as [e | toks]; [exact H|].
  destruct H as (Ha & ->). simpl. rewrite length_map. auto.
Qed.

Lemma scan_loop_visible (source : string) :
  forall acc : list Token,
    scan_loop acc source
    = scan_loop acc (string_of_list_ascii (visible_chars source)).
Proof.
  unfold visible_chars.
  induction source as [|c source IH]; intros acc; simpl.
  - reflexivity.
  - destruct (isspace c) eqn:Hs; simpl; [apply IH|].
    rewrite Hs, !IH. reflexivity.
Qed.

(** X5.  Whitespace carries no meaning: two sources with the same
    characters once whitespace is removed scan to the same tokens, or fail
    on the same character, and the whole pipeline gives the same
    outcome. *)
Theorem whitespace_is_ignored (source1 source2 : string) :
  visible_chars source1 = visible_chars source2 ->
  simple_scan source1 = simple_scan source2 /\ main source1 = main source2.
Proof.
  intros H.
  assert (E : simple_scan source1 = simple_scan source2).
  { unfold simple_scan.
    rewrite (scan_loop_visible source1), (scan_loop_visible source2), H.
    reflexivity. }
  split; [exact E|]. unfold main. rewrite E. reflexivity.
Qed.

Lemma whitespace_is_ignored_witness :
  visible_chars "1+2*3" = visible_chars " 1 +  2 * 3 " /\
  main "1+2*3" = main " 1 +  2 * 3 ".
Proof.
  split; [reflexivity|].
  apply (whitespace_is_ignored "1+2*3" " 1 +  2 * 3 "). reflexivity.
Defined.

(** ** Rendering of instructions *)

Lemma py_str_inj (n m : Z) (s : string) :
  py_str n = Some s -> py_str m = Some s -> n = m.
Proof.
  unfold py_str.
  destruct (printable n); [|discriminate].
  destruct (printable m); [|discriminate].
  intros Hn Hm. injection Hn as Hn. injection Hm as Hm.
  rewrite <- Hm in Hn. clear Hm. apply DecimalZ.to_int_inj.
  assert (R : forall z : Z,
             NilZero.int_of_string (NilZero.string_of_int (Z.to_int z))
             = Some (Z.to_int z)).
  { intros z. apply NilZero.isi; destruct z; simpl; try discriminate;
      intros E; injection E as E;
      exact (DecimalPos.Unsigned.to_uint_nonnil _ E). }
  pose proof (R n) as Rn. rewrite Hn, R in Rn. injection Rn as Rn.
  symmetry. exact Rn.
Qed.

(** X6.  The text of an instruction identifies it: two instructions with
    the same rendering are the same instruction, so the listing printed by
    the parser determines the bytecode. *)
Theorem instruction_str_injective (i j : BytecodeInstruction) (s : string) :
  instruction_str i = Some s -> instruction_str j = Some s -> i = j.
Proof.
  destruct i as [v | |], j as [w | |]; cbn [instruction_str];
    try reflexivity;
    try destruct (py_str v) as [a|] eqn:Ev;
    try destruct (py_str w) as [b|] eqn:Ew;
    cbn [option_map]; intros Hi Hj;
    try discriminate; injection Hi as <-; try discriminate.
  injection Hj as Hj. rewrite Hj in Ew. f_equal.
  exact (py_str_inj v w a Ev Ew).
Qed.

Lemma instruction_str_injective_witness :
  instruction_str (ConstantInstruction 7) = Some "CONST 7"%string /\
  ConstantInstruction 7 = ConstantInstruction 7.
Proof.
  split; [reflexivity|].
  apply (instruction_str_injective (ConstantInstruction 7)
           (ConstantInstruction 7) "CONST 7").
  - reflexivity.
  - reflexivity.
Defined.

(** ** Parser: termination and errors *)

Lemma and_then_OutOfFuel (o : Outcome) (k : PrattParser -> Outcome) :
  and_then o k <> OutOfFuel -> o <> OutOfFuel.
Proof. destruct o; simpl; intros H; [discriminate | discriminate | exact H]. Qed.

(** A larger budget does not change an outcome that was reached. *)
Lemma methods_fuel_mono (fuel : nat) :
  forall fuel' : nat,
    (fuel <= fuel')%nat ->
    (forall precedence self,
        parse_precedence fuel precedence self <> OutOfFuel ->
        parse_precedence fuel' precedence self
        = parse_precedence fuel precedence self) /\
    (forall precedence self,
        infix_loop fuel precedence self <> OutOfFuel ->
        infix_loop fuel' precedence self = infix_loop fuel precedence self) /\
    (forall self,
        binary fuel self <> OutOfFuel ->
        binary fuel' self = binary fuel self).
Proof.
  induction fuel as [|fuel IH]; intros fuel' Hle.
  { repeat split; intros; simpl in *; contradiction. }
  destruct fuel' as [|fuel']; [lia|].
  destruct (IH fuel' ltac:(lia)) as (IHp & IHl & IHb).
  assert (Hjump : forall precedence jump self,
             and_then (jump_call fuel jump self) (infix_loop fuel precedence)
             <> OutOfFuel ->
             and_then (jump_call fuel' jump self) (infix_loop fuel' precedence)
             = and_then (jump_call fuel jump self)
                        (infix_loop fuel precedence)).
  { intros precedence jump self H.
    assert (Ej : jump_call fuel' jump self = jump_call fuel jump self).
    { destruct jump; simpl; [reflexivity|].
      apply IHb. apply and_then_OutOfFuel in H. exact H. }
    rewrite Ej. destruct (jump_call fuel jump self) as [s | e s |]; simpl in *;
      [apply IHl; exact H | reflexivity | reflexivity]. }
  split; [|split].
  - intros precedence self. rewrite !parse_precedence_eq.
    destruct (current self >=? len_tokens self); [reflexivity|].
    destruct (subscript self (current self)) as [[start|] self1];
      [|reflexivity].
    destruct (fst (jumptable (kind start))) as [jump|]; [|reflexivity].
    apply Hjump.
  - intros precedence self. rewrite !infix_loop_eq.
    destruct (current self <? len_tokens self); [|reflexivity].
    destruct (subscript self (current self)) as [[t|] self1]; [|reflexivity].
    destruct (precedence <=? value (kind t)); [|reflexivity].
    destruct (subscript self1 (current self1)) as [[t'|] self2];
      [|reflexivity].
    destruct (snd (jumptable (kind t'))) as [jump|]; [|reflexivity].
    apply Hjump.
  - intros self. rewrite !binary_eq.
    destruct (current self >=? len_tokens self); [reflexivity|].
    destruct (subscript self (current self)) as [[operator|] self1];
      [|reflexivity].
    intros H. rewrite IHp; [reflexivity|].
    apply and_then_OutOfFuel in H. exact H.
Qed.

(** X7.  Parsing always terminates.  From any parser whose cursor is in
    bounds, [parse_precedence] and [binary] end (they return or raise)
    within a recursion depth that depends on the number of tokens ahead
    only, and the outcome is the same at any larger depth: the outcome of
    the model is the outcome of the Python call. *)
Theorem parsing_terminates (self : PrattParser) (precedence : Z)
  (fuel : nat) :
  within self -> (fuel_for self <= fuel)%nat ->
  parse_precedence (fuel_for self) precedence self <> OutOfFuel /\
  parse_precedence fuel precedence self
  = parse_precedence (fuel_for self) precedence self /\
  binary (fuel_for self) self <> OutOfFuel /\
  binary fuel self = binary (fuel_for self) self.
Proof.
  intros W Hle.
  destruct (methods_total (fuel_for self)) as (Tp & _ & Tb).
  destruct (methods_fuel_mono (fuel_for self) fuel Hle) as (Mp & _ & Mb).
  assert (F : 2 * (len_tokens self - current self) + 1
              <= Z.of_nat (fuel_for self)).
  { unfold fuel_for, within in *. lia. }
  assert (Hp : parse_precedence (fuel_for self) precedence self <> OutOfFuel).
  { apply Tp; assumption. }
  assert (Hb : binary (fuel_for self) self <> OutOfFuel).
  { apply Tb; [assumption | lia | unfold fuel_for; lia]. }
  repeat split; auto.
Qed.

Lemma parsing_terminates_witness :
  let self := PrattParser_init [digit_token D1; plus_token; digit_token D2] in
  within self /\
  parse_precedence 100 0 self = parse_precedence (fuel_for self) 0 self.
Proof.
  intros self. split; [apply init_within|].
  apply (parsing_terminates self 0 100).
  - apply init_within.
  - vm_compute. lia.
Defined.

Lemma py_index_in_range {A : Type} (l : list A) (i : Z) :
  0 <= i < Z.of_nat (List.length l) -> exists x, py_index l i = Some x.
Proof.
  intros H. rewrite py_index_nth by exact H.
  destruct (nth_error l (Z.to_nat i)) as [x|] eqn:E; [exists x; reflexivity|].
  apply nth_error_None in E. lia.
Qed.

Lemma number_errors (self self' : PrattParser) (e : PyError) :
  within self -> number self = Raised e self' -> e = InvalidNumberLiteral.
Proof.
  intros W. unfold number.
  destruct (current self >=? len_tokens self) eqn:E; [discriminate|].
  unfold subscript, set_current. cbn [tokens current bytecode reads].
  replace (current self + 1 - 1) with (current self) by lia.
  destruct (py_index_in_range (tokens self) (current self)) as [t Ht].
  { unfold within, len_tokens in *. lia. }
  rewrite Ht. destruct (py_int (lexeme t)); [discriminate|].
  intros R. injection R as <- _. reflexivity.
Qed.

Lemma methods_errors (fuel : nat) :
  (forall precedence self e self',
      within self ->
      parse_precedence fuel precedence self = Raised e self' ->
      parse_error e) /\
  (forall precedence self e self',
      within self ->
      infix_loop fuel precedence self = Raised e self' -> parse_error e) /\
  (forall self e self',
      within self -> binary fuel self = Raised e self' -> parse_error e).
Proof.
  induction fuel as [|fuel (IHp & IHl & IHb)].
  { repeat split; intros; discriminate. }
  assert (Hjump : forall precedence jump self e self',
             within self ->
             and_then (jump_call fuel jump self) (infix_loop fuel precedence)
             = Raised e self' ->
             parse_error e).
  { intros precedence jump self e self' W.
    pose proof (jump_call_safe fuel jump self W) as S.
    destruct (jump_call fuel jump self) as [s | e1 s |] eqn:Ej; simpl.
    - apply IHl. eapply advanced_within; eassumption.
    - intros R. injection R as <- _. destruct jump; simpl in Ej.
      + apply number_errors in Ej; [|exact W]. right; right; exact Ej.
      + eapply IHb; eassumption.
    - discriminate. }
  split; [|split].
  - intros precedence self e self' W. rewrite parse_precedence_eq.
    destruct (current self >=? len_tokens self) eqn:E; [discriminate|].
    destruct (py_index_in_range (tokens self) (current self)) as [t Ht].
    { unfold within, len_tokens in *. lia. }
    unfold subscript. rewrite Ht.
    destruct (fst (jumptable (kind t))) as [jump|].
    + apply Hjump. exact W.
    + intros R. injection R as <- _. left; reflexivity.
  - intros precedence self e self' W. rewrite infix_loop_eq.
    destruct (current self <? len_tokens self) eqn:E; [|discriminate].
    destruct (py_index_in_range (tokens self) (current self)) as [t Ht].
    { unfold within, len_tokens in *. lia. }
    unfold subscript. cbn [tokens current bytecode reads]. rewrite Ht.
    destruct (precedence <=? value (kind t)); [|discriminate].
    destruct (snd (jumptable (kind t))) as [jump|].
    + apply Hjump. exact W.
    + intros R. injection R as <- _. right; left; reflexivity.
  - intros self e self' W. rewrite binary_eq.
    destruct (current self >=? len_tokens self) eqn:E; [discriminate|].
    destruct (py_index_in_range (tokens self) (current self)) as [t Ht].
    { unfold within, len_tokens in *. lia. }
    unfold subscript. rewrite Ht.
    match goal with
    | |- and_then (parse_precedence ?f ?q ?s) _ = _ -> _ =>
        pose proof (IHp q s) as T;
        destruct (parse_precedence f q s) as [s3 | e3 s3 |]
    end; simpl.
    + destruct (kind t); discriminate.
    + intros R. injection R as <- _. eapply T; [|reflexivity].
      unfold within, len_tokens, set_current in *.
      cbn [tokens current] in *. lia.
    + discriminate.
Qed.

(** X8.  A parser whose cursor is in bounds never subscripts the token
    list out of range: whatever the tokens, a method that raises does so
    for a missing prefix handler, a missing infix handler or a lexeme that
    is not an integer literal. *)
Theorem parser_raises_only (self self' : PrattParser) (e : PyError)
  (fuel : nat) (precedence : Z) :
  within self ->
  (number self = Raised e self' \/
   parse_precedence fuel precedence self = Raised e self' \/
   binary fuel self = Raised e self') ->
  parse_error e /\ e <> TokenIndexError.
Proof.
  intros W H.
  assert (P : parse_error e).
  { destruct (methods_errors fuel) as (Ep & _ & Eb).
    destruct H as [H | [H | H]].
    - right; right. eapply number_errors; eassumption.
    - eapply Ep; eassumption.
    - eapply Eb; eassumption. }
  split; [exact P|].
  destruct P as [-> | [-> | ->]]; discriminate.
Qed.

Lemma parser_raises_only_witness :
  let self := PrattParser_init [plus_token] in
  within self /\ parse_error NoPrefixParselet.
Proof.
  intros self. split; [apply init_within|].
  apply (parser_raises_only self
           (mkParser [plus_token] 0 [] [(0, 0)]) NoPrefixParselet 1 0).
  - apply init_within.
  - right; left. reflexivity.
Defined.

(** ** Parser: one instruction per token *)

Lemma firstn_succ_nth {A : Type} (l : list A) (n : nat) (x : A) :
  nth_error l n = Some x -> firstn (S n) l = firstn n l ++ [x].
Proof.
  revert l. induction n as [|n IH]; intros [|y l] H; try discriminate.
  - simpl in H. injection H as ->. reflexivity.
  - simpl in H. rewrite (firstn_cons (S n)), (firstn_cons n), (IH l H).
    reflexivity.
Qed.

Lemma consumed_prefix (self : PrattParser) (t : Token) :
  0 <= current self < len_tokens self ->
  py_index (tokens self) (current self) = Some t ->
  firstn (Z.to_nat (current self + 1)) (tokens self)
  = firstn (Z.to_nat (current self)) (tokens self) ++ [t].
Proof.
  unfold len_tokens. intros H Hi. rewrite py_index_nth in Hi by exact H.
  replace (Z.to_nat (current self + 1)) with (S (Z.to_nat (current self)))
    by lia.
  apply firstn_succ_nth, Hi.
Qed.

Lemma number_tallied (pending : list TokenKind) (self self' : PrattParser)
  (t : Token) :
  within self -> current self < len_tokens self ->
  py_index (tokens self) (current self) = Some t -> kind t = NUMBER ->
  number self = Returned self' ->
  tallied pending self -> tallied pending self'.
Proof.
  intros W Hlt Hi Hk. unfold number.
  replace (current self >=? len_tokens self) with false by lia.
  unfold subscript, set_current. cbn [tokens current bytecode reads].
  replace (current self + 1 - 1) with (current self) by lia.
  rewrite Hi. destruct (py_int (lexeme t)) as [v|]; [|discriminate].
  intros R. injection R as <-. unfold tallied, emit.
  cbn [tokens current bytecode reads]. intros T.
  rewrite (consumed_prefix self t) by (unfold within in W; auto; lia).
  rewrite !map_app. cbn [map kind_of_instruction]. rewrite Hk.
  rewrite <- app_assoc. cbn [app].
  apply Permutation_trans
    with (NUMBER :: map kind_of_instruction (bytecode self) ++ pending).
  - apply Permutation_sym, Permutation_middle.
  - eapply Permutation_trans; [apply perm_skip, T|].
    apply Permutation_cons_append.
Qed.

Lemma tallied_consume (pending : list TokenKind) (self self2 : PrattParser)
  (t : Token) :
  0 <= current self < len_tokens self ->
  py_index (tokens self) (current self) = Some t ->
  tokens self2 = tokens self -> bytecode self2 = bytecode self ->
  current self2 = current self + 1 ->
  tallied pending self -> tallied (kind t :: pending) self2.
Proof.
  unfold tallied. intros H Hi -> -> -> T.
  rewrite (consumed_prefix self t H Hi), map_app. cbn [map].
  apply Permutation_trans
    with (kind t :: map kind_of_instruction (bytecode self) ++ pending).
  - apply Permutation_sym, Permutation_middle.
  - eapply Permutation_trans; [apply perm_skip, T|].
    apply Permutation_cons_append.
Qed.

Lemma tallied_emit (pending : list TokenKind) (i : BytecodeInstruction)
  (self : PrattParser) :
  tallied (kind_of_instruction i :: pending) self ->
  tallied pending (emit i self).
Proof.
  unfold tallied, emit. cbn [tokens current bytecode reads]. intros T.
  rewrite map_app, <- app_assoc. exact T.
Qed.

Lemma methods_tallied (fuel : nat) :
  (forall pending precedence self self',
      within self ->
      parse_precedence fuel precedence self = Returned self' ->
      tallied pending self -> tallied pending self') /\
  (forall pending precedence self self',
      within self ->
      infix_loop fuel precedence self = Returned self' ->
      tallied pending self -> tallied pending self') /\
  (forall pending self self' operator,
      within self -> current self < len_tokens self ->
      py_index (tokens self) (current self) = Some operator ->
      kind operator <> NUMBER ->
      binary fuel self = Returned self' ->
      tallied pending self -> tallied pending self').
Proof.
  induction fuel as [|fuel (IHp & IHl & IHb)].
  { repeat split; intros; discriminate. }
  split; [|split].
  - intros pending precedence self self' W. rewrite parse_precedence_eq.
    destruct (current self >=? len_tokens self) eqn:E.
    { intros R. injection R as <-. auto. }
    assert (Hlt : current self < len_tokens self) by lia.
    destruct (py_index_in_range (tokens self) (current self)) as [t Ht].
    { unfold within, len_tokens in *. lia. }
    unfold subscript. rewrite Ht.
    destruct (kind t) eqn:Hk; cbn [jumptable fst]; try discriminate.
    cbn [jump_call].
    match goal with
    | |- and_then (number ?s) _ = _ -> _ =>
        pose proof (number_safe s W) as S;
        pose proof (number_tallied pending s) as N;
        destruct (number s) as [s2 | e s2 |]
    end; simpl; try discriminate.
    intros R T. apply (IHl pending precedence s2 self').
    + eapply advanced_within; [|exact S]. exact W.
    + exact R.
    + apply (N s2 t); auto.
  - intros pending precedence self self' W. rewrite infix_loop_eq.
    destruct (current self <? len_tokens self) eqn:E.
    2:{ intros R. injection R as <-. auto. }
    assert (Hlt : current self < len_tokens self) by lia.
    destruct (py_index_in_range (tokens self) (current self)) as [t Ht].
    { unfold within, len_tokens in *. lia. }
    unfold subscript. cbn [tokens current bytecode reads]. rewrite Ht.
    destruct (precedence <=? value (kind t)).
    2:{ intros R. injection R as <-. auto. }
    destruct (kind t) eqn:Hk; cbn [jumptable snd]; try discriminate;
      cbn [jump_call];
      match goal with
      | |- and_then (binary fuel ?s) _ = _ -> _ =>
          pose proof (binary_safe fuel s W) as S;
          pose proof (IHb pending s) as B;
          destruct (binary fuel s) as [s2 | e s2 |]
      end; simpl; try discriminate;
      intros R T; apply (IHl pending precedence s2 self');
      try exact R;
      try (eapply advanced_within; [|exact S]; exact W);
      apply (B s2 t); auto; rewrite Hk; discriminate.
  - intros pending self self' operator W Hlt Hi Hk. rewrite binary_eq.
    replace (current self >=? len_tokens self) with false by lia.
    unfold subscript. rewrite Hi.
    match goal with
    | |- and_then (parse_precedence ?f ?q ?s) _ = _ -> _ =>
        pose proof (IHp (kind operator :: pending) q s) as P;
        destruct (parse_precedence f q s) as [s3 | e s3 |]
    end; simpl; try discriminate.
    intros R T.
    assert (T3 : tallied (kind operator :: pending) s3).
    { apply P; [| reflexivity |].
      - unfold within, len_tokens, set_current in *.
        cbn [tokens current] in *. lia.
      - apply (tallied_consume pending self _ operator); try reflexivity;
          auto. unfold within in W. lia. }
    destruct (kind operator) eqn:Hko.
    + injection R as <-. apply tallied_emit. exact T3.
    + injection R as <-. apply tallied_emit. exact T3.
    + contradiction.
Qed.

Lemma infix_loop_returns_at_end (fuel : nat) :
  forall (precedence : Z) (self self' : PrattParser),
    precedence <= 0 ->
    infix_loop fuel precedence self = Returned self' ->
    len_tokens self' <= current self'.
Proof.
  induction fuel as [|fuel IH]; intros precedence self self' Hp;
    [discriminate|].
  rewrite infix_loop_eq.
  destruct (current self <? len_tokens self) eqn:E.
  2:{ intros R. injection R as <-. lia. }
  unfold subscript. cbn [tokens current bytecode reads].
  destruct (py_index (tokens self) (current self)) as [t|]; [|discriminate].
  replace (precedence <=? value (kind t)) with true
    by (destruct (kind t); simpl; lia).
  destruct (snd (jumptable (kind t))) as [jump|]; [|discriminate].
  match goal with
  | |- and_then ?o _ = _ -> _ => destruct o as [s | e s |]
  end; simpl; try discriminate.
  apply IH, Hp.
Qed.

Lemma parse_returns_at_end (toks : list Token) (self : PrattParser) :
  parse toks = Returned self ->
  tokens self = toks /\ current self = Z.of_nat (List.length toks).
Proof.
  intros R.
  pose proof (parse_precedence_safe (fuel_for (PrattParser_init toks)) 0
                (PrattParser_init toks) (init_within toks)) as S.
  unfold parse in R. rewrite R in S. destruct S as (Ht & Hc & _).
  split; [exact Ht|].
  assert (Hge : len_tokens self <= current self).
  { revert R. unfold fuel_for.
    replace (2 * Z.to_nat (len_tokens (PrattParser_init toks)
                           - current (PrattParser_init toks)) + 1)%nat
      with (S (2 * Z.to_nat (len_tokens (PrattParser_init toks)
                             - current (PrattParser_init toks))))
      by lia.
    rewrite parse_precedence_eq.
    destruct (current (PrattParser_init toks)
              >=? len_tokens (PrattParser_init toks)) eqn:E.
    { intros R. injection R as <-. lia. }
    destruct (subscript (PrattParser_init toks)
                (current (PrattParser_init toks))) as [[t|] s1];
      [|discriminate].
    destruct (fst (jumptable (kind t))) as [jump|]; [|discriminate].
    match goal with
    | |- and_then ?o _ = _ -> _ => destruct o as [s | e s |]
    end; simpl; try discriminate.
    apply infix_loop_returns_at_end. lia. }
  unfold len_tokens in *. rewrite Ht in *. simpl in Hc, Hge. lia.
Qed.

Lemma parse_tally (toks : list Token) (self : PrattParser) :
  parse toks = Returned self ->
  current self = Z.of_nat (List.length toks) /\
  List.length (bytecode self) = List.length toks /\
  Permutation (map kind_of_instruction (bytecode self)) (map kind toks).
Proof.
  intros R. destruct (parse_returns_at_end toks self R) as (Ht & Hc).
  destruct (methods_tallied (fuel_for (PrattParser_init toks)))
    as (Tp & _ & _).
  assert (T : tallied [] self).
  { apply (Tp [] 0 (PrattParser_init toks) self (init_within toks) R).
    unfold tallied. simpl. constructor. }
  unfold tallied in T. rewrite app_nil_r, Ht, Hc, Nat2Z.id, firstn_all in T.
  split; [exact Hc|]. split; [|exact T].
  apply Permutation_length in T. rewrite !length_map in T. exact T.
Qed.

(** X9.  When parsing returns, whatever the tokens, every token has been
    consumed and exactly one instruction has been emitted per token: the
    bytecode has a [Constant] for each NUMBER token, an [Add] for each
    PLUS and a [Multiply] for each MULTIPLY, and nothing else. *)
Theorem parse_emits_one_per_token (toks : list Token) (self : PrattParser) :
  parse toks = Returned self ->
  current self = Z.of_nat (List.length toks) /\
  List.length (bytecode self) = List.length toks /\
  Permutation (map kind_of_instruction (bytecode self)) (map kind toks).
Proof. apply parse_tally. Qed.

Lemma parse_emits_one_per_token_witness :
  parse [digit_token D1; star_token]
  = Returned
      (mkParser [digit_token D1; star_token] 2
         [ConstantInstruction 1; MultiplyInstruction]
         [(0, 0); (0, 1); (1, 1); (1, 1); (1, 1)]) /\
  Permutation [NUMBER; MULTIPLY] [NUMBER; MULTIPLY].
Proof.
  split; [reflexivity|].
  apply (parse_emits_one_per_token [digit_token D1; star_token]
           (mkParser [digit_token D1; star_token] 2
              [ConstantInstruction 1; MultiplyInstruction]
              [(0, 0); (0, 1); (1, 1); (1, 1); (1, 1)])).
  reflexivity.
Defined.

(** ** A digit character without a decimal value *)

Lemma py_int_undecimal_digit (c : ascii) :
  isdigit c = true -> decimal_value c = None ->
  py_int (String c EmptyString) = None.
Proof.
  destruct c as [[] [] [] [] [] [] [] []]; vm_compute; intros H1 H2;
    try discriminate; reflexivity.
Qed.

(** X10.  The scanner takes as NUMBER every character [str.isdigit]
    accepts, and [int] does not convert all of them: when the first
    visible character of a source that scans is such a digit without
    decimal value (a superscript digit), [number] raises on its lexeme,
    the cursor already moved past the token and nothing emitted. *)
Theorem undecimal_digit_fails (source : string) (c : ascii)
  (rest : list ascii) :
  visible_chars source = c :: rest ->
  isdigit c = true -> decimal_value c = None ->
  forallb accepted rest = true ->
  exists parser,
    simple_scan source = inr (tokens parser) /\
    main source = ParseFailed InvalidNumberLiteral parser /\
    current parser = 1 /\
    bytecode parser = [].
Proof.
  intros Hv Hd Hn Hr.
  assert (Hs : simple_scan source
               = inr (mkToken (String c EmptyString) NUMBER
                        :: map char_token rest)).
  { unfold simple_scan. rewrite scan_loop_accepted; rewrite Hv.
    - simpl. unfold char_token at 1. rewrite Hd. reflexivity.
    - simpl. unfold accepted at 1. rewrite Hd, Hr. reflexivity. }
  unfold main. rewrite Hs, parse_unfold, parse_precedence_eq.
  unfold PrattParser_init, len_tokens, subscript, number, set_current,
    subscript.
  cbn [tokens current bytecode reads].
  assert (H0 : py_index (mkToken (String c EmptyString) NUMBER
                           :: map char_token rest) 0
               = Some (mkToken (String c EmptyString) NUMBER)).
  { rewrite py_index_nth; [reflexivity|]. cbn [List.length]. lia. }
  rewrite H0. cbn [kind jumptable fst jump_call].
  unfold number, len_tokens, subscript, set_current.
  cbn [tokens current bytecode reads].
  change (0 + 1 - 1) with 0. rewrite H0. cbn [lexeme].
  rewrite (py_int_undecimal_digit c Hd Hn).
  assert (Hlen : 1 <= Z.of_nat
                        (List.length (mkToken (String c EmptyString) NUMBER
                                        :: map char_token rest))).
  { cbn [List.length]. lia. }
  revert Hlen.
  generalize (Z.of_nat (List.length (mkToken (String c EmptyString) NUMBER
                                       :: map char_token rest))).
  intros n Hlen. replace (0 >=? n) with false by lia. cbn [and_then].
  eexists. repeat split; reflexivity.
Qed.

Lemma undecimal_digit_fails_witness :
  isdigit (ascii_of_nat 178) = true /\
  exists parser,
    main (String (ascii_of_nat 178) "+1")
    = ParseFailed InvalidNumberLiteral parser /\
    bytecode parser = [].
Proof.
  split; [reflexivity|].
  destruct (undecimal_digit_fails (String (ascii_of_nat 178) "+1")
              (ascii_of_nat 178) ["+"%char; "1"%char])
    as (parser & _ & Hm & _ & Hb); try reflexivity.
  exists parser. split; assumption.
Defined.

(** ** A trailing [+] *)











(** ** What a returned parse leaves on the stack *)

Lemma final_height_app (a b : list BytecodeInstruction) :
  forall h,
    final_height h (a ++ b)
    = match final_height h a with
      | Some h' => final_height h' b
      | None => None
      end.
Proof.
  induction a as [|i a IH]; intros h.
  - reflexivity.
  - cbn [app]. rewrite (final_height_cons h i (a ++ b)),
      (final_height_cons h i a).
    destruct (final_height h [i]); [apply IH | reflexivity].
Qed.

Lemma operator_falls (i : BytecodeInstruction) :
  kind_of_instruction i <> NUMBER -> falls [i].
Proof.
  destruct i; simpl; intros H; [contradiction| |]; split; reflexivity.
Qed.

Lemma operand_operator_keeps (em : list BytecodeInstruction)
  (i : BytecodeInstruction) :
  kind_of_instruction i <> NUMBER -> pushes_one em -> keeps (em ++ [i]).
Proof.
  intros Hi P h. rewrite final_height_app, P.
  apply (operator_falls i Hi).
Qed.

Lemma dangling_operator_falls (em : list BytecodeInstruction)
  (i : BytecodeInstruction) :
  kind_of_instruction i <> NUMBER -> dangles em -> falls (em ++ [i]).
Proof.
  intros Hi [D0 D] . destruct (operator_falls i Hi) as [F1 F]. split.
  - rewrite final_height_app, D. exact F1.
  - intros h. rewrite final_height_app, D. apply F.
Qed.

Lemma keeps_app (a b : list BytecodeInstruction) :
  keeps a -> keeps b -> keeps (a ++ b).
Proof. intros A B h. rewrite final_height_app, A. apply B. Qed.

Lemma keeps_falls (a b : list BytecodeInstruction) :
  keeps a -> falls b -> falls (a ++ b).
Proof.
  intros A [B1 B]. split.
  - rewrite final_height_app, A. exact B1.
  - intros h. rewrite final_height_app, A. apply B.
Qed.

Lemma keeps_nil : keeps [].
Proof. intros h. reflexivity. Qed.

Lemma loop_shape_refl (self self' : PrattParser) :
  bytecode self' = bytecode self -> loop_shape self self'.
Proof.
  intros H. exists []. rewrite app_nil_r. split; [exact H|].
  left. exact keeps_nil.
Qed.

Lemma loop_shape_trans (a b c : PrattParser) :
  loop_shape a b -> loop_shape b c ->
  (at_end b -> bytecode c = bytecode b /\ at_end c) ->
  loop_shape a c.
Proof.
  intros (e1 & H1 & S1) (e2 & H2 & S2) End.
  destruct S1 as [K1 | [E1 F1]].
  - exists (e1 ++ e2). rewrite H2, H1, app_assoc. split; [reflexivity|].
    destruct S2 as [K2 | [E2 F2]].
    + left. apply keeps_app; assumption.
    + right. split; [exact E2|]. apply keeps_falls; assumption.
  - destruct (End E1) as (Hb & Ec).
    exists e1. split; [congruence|]. right. auto.
Qed.

Lemma infix_loop_at_end (fuel : nat) (precedence : Z)
  (self self' : PrattParser) :
  at_end self -> infix_loop fuel precedence self = Returned self' ->
  self' = self.
Proof.
  unfold at_end. intros E. destruct fuel as [|fuel]; [discriminate|].
  rewrite infix_loop_eq.
  replace (current self <? len_tokens self) with false by lia.
  intros R. injection R as <-. reflexivity.
Qed.

Lemma methods_shape (fuel : nat) :
  (forall precedence self self',
      parse_precedence fuel precedence self = Returned self' ->
      operand_shape self self') /\
  (forall precedence self self',
      infix_loop fuel precedence self = Returned self' ->
      loop_shape self self') /\
  (forall self self' operator,
      current self < len_tokens self ->
      py_index (tokens self) (current self) = Some operator ->
      kind operator <> NUMBER ->
      binary fuel self = Returned self' ->
      loop_shape self self').
Proof.
  induction fuel as [|fuel (IHp & IHl & IHb)].
  { repeat split; intros; discriminate. }
  split; [|split].
  - intros precedence self self'. rewrite parse_precedence_eq.
    destruct (current self >=? len_tokens self) eqn:E.
    { intros R. injection R as <-. exists []. rewrite app_nil_r.
      split; [reflexivity|]. right. unfold at_end. split; [lia | auto]. }
    unfold subscript.
    destruct (py_index (tokens self) (current self)) as [t|] eqn:Ht;
      [|discriminate].
    destruct (kind t) eqn:Hk; cbn [jumptable fst]; try discriminate.
    cbn [jump_call]. unfold number at 1. unfold len_tokens in *.
    cbn [tokens current bytecode reads]. rewrite E.
    unfold subscript, set_current. cbn [tokens current bytecode reads].
    destruct (py_index (tokens self) (current self + 1 - 1)) as [t1|];
      [|discriminate].
    destruct (py_int (lexeme t1)) as [v|]; [|discriminate].
    cbn [and_then]. intros R.
    destruct (IHl _ _ _ R) as (em & Hb & S).
    unfold emit in Hb. cbn [tokens current bytecode reads] in Hb.
    exists (ConstantInstruction v :: em).
    split; [rewrite Hb, <- app_assoc; reflexivity|].
    destruct S as [K | [Ee [F1 F]]].
    + left. intros h. cbn [final_height]. apply K.
    + right. split; [exact Ee|]. right. split.
      * cbn [final_height]. exact F1.
      * intros h. cbn [final_height]. apply F.
  - intros precedence self self'. rewrite infix_loop_eq.
    destruct (current self <? len_tokens self) eqn:E.
    2:{ intros R. injection R as <-. apply loop_shape_refl. reflexivity. }
    unfold subscript. cbn [tokens current bytecode reads].
    destruct (py_index (tokens self) (current self)) as [t|] eqn:Ht;
      [|discriminate].
    destruct (precedence <=? value (kind t)).
    2:{ intros R. injection R as <-. apply loop_shape_refl. reflexivity. }
    destruct (kind t) eqn:Hk; cbn [jumptable snd]; try discriminate;
      cbn [jump_call];
      match goal with
      | |- and_then (binary fuel ?s) _ = _ -> _ =>
          pose proof (IHb s) as B;
          destruct (binary fuel s) as [s2 | e s2 |] eqn:Eb
      end; simpl; try discriminate;
      intros R;
      (apply loop_shape_trans with s2;
       [ apply (B s2 t); auto;
         [unfold len_tokens in *; cbn [tokens current]; lia
         | rewrite Hk; discriminate]
       | apply (IHl _ _ _ R)
       | intros Ee; rewrite (infix_loop_at_end _ _ _ _ Ee R); auto ]).
  - intros self self' operator Hlt Hi Hk. rewrite binary_eq.
    replace (current self >=? len_tokens self) with false by lia.
    unfold subscript. rewrite Hi.
    match goal with
    | |- and_then (parse_precedence ?f ?q ?s) _ = _ -> _ =>
        pose proof (IHp q s) as P;
        destruct (parse_precedence f q s) as [s3 | e s3 |]
    end; simpl; try discriminate.
    destruct (P s3 eq_refl) as (em & Hb & S).
    unfold set_current in Hb. cbn [tokens current bytecode reads] in Hb.
    assert (Shape : forall i,
               kind_of_instruction i <> NUMBER ->
               loop_shape self (emit i s3)).
    { intros i Hn. exists (em ++ [i]). unfold emit.
      cbn [tokens current bytecode reads].
      split; [rewrite Hb, app_assoc; reflexivity|].
      unfold at_end, len_tokens. cbn [tokens current].
      destruct S as [Pu | [Ee [-> | D]]].
      - left. apply operand_operator_keeps; assumption.
      - right. split; [exact Ee|]. apply operator_falls, Hn.
      - right. split; [exact Ee|]. apply dangling_operator_falls; assumption. }
    destruct (kind operator) eqn:Hko; intros R.
    + injection R as <-. apply Shape. discriminate.
    + injection R as <-. apply Shape. discriminate.
    + contradiction.
Qed.

Lemma parse_then_interpret (toks : list Token) (self : PrattParser) :
  parse toks = Returned self ->
  match interpret (bytecode self) with
  | Finished stack printed =>
      (toks = [] /\ stack = [] /\ printed = []) \/
      (toks <> [] /\ exists v, stack = [v])
  | Failed e _ _ =>
      (e = StackUnderflow \/ e = UnprintableInteger) /\ toks <> []
  end.
Proof.
  intros R. destruct (parse_tally toks self R) as (_ & Hl & _).
  destruct (methods_shape (fuel_for (PrattParser_init toks))) as (Sp & _ & _).
  destruct (Sp 0 (PrattParser_init toks) self R) as (em & Hb & S).
  cbn [PrattParser_init bytecode app] in Hb.
  pose proof (interpret_loop_height (bytecode self) [] []) as H.
  unfold interpret. rewrite Hb in *. cbn [List.length] in H.
  assert (Hne : forall o, final_height 0 em = o -> o <> Some 0%nat ->
                          toks <> []).
  { intros o Ho Hn ->. simpl in Hl. destruct em; [|discriminate].
    simpl in Ho. congruence. }
  destruct S as [P | [_ [-> | [D0 _]]]].
  - rewrite (P 0%nat) in H.
    destruct (interpret_loop em [] []) as [stack printed | e stack printed].
    + right. split; [apply (Hne _ (P 0%nat)); discriminate|].
      destruct stack as [|v [|w stack]]; try discriminate. exists v.
      reflexivity.
    + split; [|apply (Hne _ (P 0%nat)); discriminate].
      destruct H as [[-> _] | ->]; auto.
  - left. simpl in Hl. destruct toks; [auto | discriminate].
  - rewrite D0 in H.
    destruct (interpret_loop em [] []) as [stack printed | e stack printed].
    + discriminate.
    + split; [|apply (Hne _ D0); discriminate].
      destruct H as [[-> _] | ->]; auto.
Qed.

(** X12.  The stack never ends with more than one value.  Whatever the
    tokens, when parsing returns, running its bytecode either ends with
    exactly one value, or with none when there was no token at all, or
    raises (the underflow of an operator without its right operand, or the
    print of a value over the digit limit of [str]).  For a
    source, a pipeline that ends normally leaves one value, except on a
    blank source, where it leaves none and prints nothing. *)
Theorem one_value_or_none (source : string) (toks : list Token)
  (parser : PrattParser) (stack : list Z) (printed : list Snapshot) :
  parse toks = Returned parser ->
  interpret (bytecode parser) = Finished stack printed ->
  ((toks = [] /\ stack = [] /\ printed = []) \/
   (toks <> [] /\ exists v, stack = [v])) /\
  (simple_scan source = inr toks ->
   main source = Interpreted parser (Finished stack printed) /\
   (toks = [] <-> visible_chars source = [])).
Proof.
  intros R Hi. pose proof (parse_then_interpret toks parser R) as H.
  rewrite Hi in H. split; [exact H|].
  intros Hs. split.
  - unfold main. rewrite Hs, R, Hi. reflexivity.
  - pose proof (scan_loop_result source []) as Hr.
    unfold simple_scan in Hs. rewrite Hs in Hr.
    destruct Hr as (_ & ->). cbn [app]. split.
    + intros E. apply map_eq_nil in E. exact E.
    + intros ->. reflexivity.
Qed.

Lemma one_value_or_none_witness :
  parse [digit_token D4]
  = Returned (mkParser [digit_token D4] 1 [ConstantInstruction 4]
                [(0, 0); (0, 1)]) /\
  ([digit_token D4] = [] /\ [4] = [] /\ [(ConstantInstruction 4, [4])] = []
   \/ [digit_token D4] <> [] /\ exists v, [4] = [v]).
Proof.
  split; [reflexivity|].
  apply (one_value_or_none "4" [digit_token D4]
           (mkParser [digit_token D4] 1 [ConstantInstruction 4]
              [(0, 0); (0, 1)])
           [4] [(ConstantInstruction 4, [4])]); reflexivity.
Defined.

(** ** An operator right after an operator *)

Lemma infix_loop_two_operators (fuel : nat) (precedence : Z)
  (self : PrattParser) (op1 op2 : Token) (rest : list Token) :
  0 <= current self ->
  ahead self = op1 :: op2 :: rest ->
  kind op1 <> NUMBER -> kind op2 <> NUMBER ->
  precedence <= value (kind op1) ->
  exists self',
    infix_loop (S (S (S fuel))) precedence self
    = Raised NoPrefixParselet self' /\
    tokens self' = tokens self /\
    current self' = current self + 1 /\
    bytecode self' = bytecode self.
Proof.
  intros H0 Ha Hk1 Hk2 Hp.
  destruct (infix_loop_operator (S fuel) precedence self op1 _ H0 Ha)
    as (s1 & M1 & Eq); [destruct (kind op1); [reflexivity.. | contradiction]
                       | exact Hp |].
  rewrite Eq. clear Eq. destruct M1 as (Ht1 & Hc1 & Ha1 & Hb1).
  destruct (ahead_cons _ _ _ H0 Ha) as (_ & _ & Hn & _).
  destruct (ahead_cons _ _ _ Hc1 Ha1) as (Hlt & Hi & _ & _).
  rewrite parse_precedence_eq.
  replace (current s1 >=? len_tokens s1) with false by lia.
  unfold subscript. rewrite Hi.
  replace (fst (jumptable (kind op2))) with (@None Parselet)
    by (destruct (kind op2); [reflexivity.. | contradiction]).
  cbn [and_then]. eexists. split; [reflexivity|].
  cbn [tokens current bytecode reads]. rewrite app_nil_r in Hb1.
  repeat split; try assumption.
  assert (Hcur : forall n : nat,
             skipn n (tokens self) = op1 :: op2 :: rest ->
             forall m : nat, skipn m (tokens self) = op2 :: rest ->
             (m = S n)%nat).
  { intros n Hn1 m Hm.
    apply (f_equal (@List.length Token)) in Hn1, Hm.
    rewrite length_skipn in Hn1, Hm. simpl in Hn1, Hm. lia. }
  unfold ahead in Ha, Ha1. rewrite Ht1 in Ha1.
  specialize (Hcur _ Ha _ Ha1). lia.
Qed.

(** X13.  An operator right after another operator is a parse error: the
    loop consumes the first operator, [binary] asks for its right operand,
    and the prefix call on the second operator raises, nothing having been
    emitted for the first.  So a source that starts with a digit followed
    by two operators fails with only the constant of the digit emitted. *)
Theorem operator_after_operator (source : string) (d : Digit)
  (o1 o2 : ascii) (rest : list ascii) :
  visible_chars source = digit_char d :: o1 :: o2 :: rest ->
  (o1 = "+"%char \/ o1 = "*"%char) ->
  (o2 = "+"%char \/ o2 = "*"%char) ->
  forallb accepted rest = true ->
  exists parser,
    main source = ParseFailed NoPrefixParselet parser /\
    current parser = 2 /\
    bytecode parser = [ConstantInstruction (digit_value d)].
Proof.
  intros Hv Ho1 Ho2 Hr.
  assert (Hs : simple_scan source
               = inr (digit_token d :: char_token o1 :: char_token o2
                        :: map char_token rest)).
  { unfold simple_scan. rewrite scan_loop_accepted; rewrite Hv.
    - cbn [map app]. rewrite digit_char_token. reflexivity.
    - cbn [forallb]. rewrite digit_char_accepted, Hr.
      destruct Ho1 as [-> | ->], Ho2 as [-> | ->]; reflexivity. }
  unfold main. rewrite Hs, parse_unfold.
  match goal with
  | |- context [parse_precedence (S ?f) 0 ?s] =>
      destruct (parse_precedence_digit f 0 s d
                  (char_token o1 :: char_token o2 :: map char_token rest)
                  (Z.le_refl 0) eq_refl) as (s1 & Eq & M)
  end.
  rewrite Eq. clear Eq. destruct M as (Ht & Hc & Ha & Hb).
  cbn [List.length].
  replace (2 * S (S (S (List.length (map char_token rest)))))%nat
    with (S (S (S (2 * List.length (map char_token rest) + 3))))%nat by lia.
  destruct (infix_loop_two_operators
              (2 * List.length (map char_token rest) + 3) 0 s1
              (char_token o1) (char_token o2) (map char_token rest) Hc Ha)
    as (p & E & Htp & Hcp & Hbp).
  - destruct Ho1 as [-> | ->]; discriminate.
  - destruct Ho2 as [-> | ->]; discriminate.
  - destruct Ho1 as [-> | ->]; simpl; lia.
  - rewrite E. exists p. split; [reflexivity|].
    cbn [PrattParser_init bytecode app] in Hb. split; [|congruence].
    assert (H1 : current s1 = 1).
    { unfold ahead in Ha. rewrite Ht in Ha.
      cbn [PrattParser_init tokens] in Ha.
      apply (f_equal (@List.length Token)) in Ha.
      rewrite length_skipn in Ha. cbn [List.length] in Ha. lia. }
    lia.
Qed.

Lemma operator_after_operator_witness :
  visible_chars "1 + * 2" = ["1"; "+"; "*"; "2"]%char /\
  exists parser,
    main "1 + * 2" = ParseFailed NoPrefixParselet parser /\
    bytecode parser = [ConstantInstruction 1].
Proof.
  split; [reflexivity|].
  destruct (operator_after_operator "1 + * 2" D1 "+" "*" ["2"%char])
    as (parser & Hm & _ & Hb); try reflexivity.
  - left; reflexivity.
  - right; reflexivity.
  - exists parser. split; assumption.
Defined.

(** ** Operands keep their order *)

Lemma constants_app (a b : list BytecodeInstruction) :
  constants (a ++ b) = constants a ++ constants b.
Proof.
  induction a as [|[v| |] a IH]; simpl; rewrite ?IH; reflexivity.
Qed.

Lemma literals_app (a b : list Token) :
  literals (a ++ b) = literals a ++ literals b.
Proof. unfold literals. rewrite filter_app, map_app. reflexivity. Qed.

Lemma literals_single (t : Token) :
  literals [t] = if is_number t then [py_int (lexeme t)] else [].
Proof. unfold literals. cbn [filter]. destruct (is_number t); reflexivity. Qed.

Lemma in_order_consume (self self2 : PrattParser) (t : Token) :
  0 <= current self < len_tokens self ->
  py_index (tokens self) (current self) = Some t ->
  kind t <> NUMBER ->
  tokens self2 = tokens self -> bytecode self2 = bytecode self ->
  current self2 = current self + 1 ->
  in_order self -> in_order self2.
Proof.
  unfold in_order. intros H Hi Hk -> -> -> T.
  rewrite (consumed_prefix self t H Hi), literals_app, T, literals_single.
  unfold is_number.
  destruct (kind t); [| |contradiction]; rewrite app_nil_r; reflexivity.
Qed.

Lemma in_order_emit (i : BytecodeInstruction) (self : PrattParser) :
  kind_of_instruction i <> NUMBER -> in_order self -> in_order (emit i self).
Proof.
  unfold in_order, emit. cbn [tokens current bytecode reads]. intros Hi T.
  rewrite constants_app.
  destruct i; [contradiction| |]; cbn [constants]; rewrite app_nil_r; exact T.
Qed.

Lemma number_in_order (self self' : PrattParser) (t : Token) :
  within self -> current self < len_tokens self ->
  py_index (tokens self) (current self) = Some t -> kind t = NUMBER ->
  number self = Returned self' ->
  in_order self -> in_order self'.
Proof.
  intros W Hlt Hi Hk. unfold number.
  replace (current self >=? len_tokens self) with false by lia.
  unfold subscript, set_current. cbn [tokens current bytecode reads].
  replace (current self + 1 - 1) with (current self) by lia.
  rewrite Hi. destruct (py_int (lexeme t)) as [v|] eqn:Hv; [|discriminate].
  intros R. injection R as <-. unfold in_order, emit.
  cbn [tokens current bytecode reads]. intros T.
  rewrite (consumed_prefix self t) by (unfold within in W; auto; lia).
  rewrite constants_app, literals_app, map_app, T, literals_single.
  unfold is_number. rewrite Hk, Hv. reflexivity.
Qed.

Lemma methods_in_order (fuel : nat) :
  (forall precedence self self',
      within self ->
      parse_precedence fuel precedence self = Returned self' ->
      in_order self -> in_order self') /\
  (forall precedence self self',
      within self ->
      infix_loop fuel precedence self = Returned self' ->
      in_order self -> in_order self') /\
  (forall self self' operator,
      within self -> current self < len_tokens self ->
      py_index (tokens self) (current self) = Some operator ->
      kind operator <> NUMBER ->
      binary fuel self = Returned self' ->
      in_order self -> in_order self').
Proof.
  induction fuel as [|fuel (IHp & IHl & IHb)].
  { repeat split; intros; discriminate. }
  split; [|split].
  - intros precedence self self' W. rewrite parse_precedence_eq.
    destruct (current self >=? len_tokens self) eqn:E.
    { intros R. injection R as <-. auto. }
    assert (Hlt : current self < len_tokens self) by lia.
    destruct (py_index_in_range (tokens self) (current self)) as [t Ht].
    { unfold within, len_tokens in *. lia. }
    unfold subscript. rewrite Ht.
    destruct (kind t) eqn:Hk; cbn [jumptable fst]; try discriminate.
    cbn [jump_call].
    match goal with
    | |- and_then (number ?s) _ = _ -> _ =>
        pose proof (number_safe s W) as S;
        pose proof (number_in_order s) as N;
        destruct (number s) as [s2 | e s2 |]
    end; simpl; try discriminate.
    intros R T. apply (IHl precedence s2 self').
    + eapply advanced_within; [|exact S]. exact W.
    + exact R.
    + apply (N s2 t); auto.
  - intros precedence self self' W. rewrite infix_loop_eq.
    destruct (current self <? len_tokens self) eqn:E.
    2:{ intros R. injection R as <-. auto. }
    assert (Hlt : current self < len_tokens self) by lia.
    destruct (py_index_in_range (tokens self) (current self)) as [t Ht].
    { unfold within, len_tokens in *. lia. }
    unfold subscript. cbn [tokens current bytecode reads]. rewrite Ht.
    destruct (precedence <=? value (kind t)).
    2:{ intros R. injection R as <-. auto. }
    destruct (kind t) eqn:Hk; cbn [jumptable snd]; try discriminate;
      cbn [jump_call];
      match goal with
      | |- and_then (binary fuel ?s) _ = _ -> _ =>
          pose proof (binary_safe fuel s W) as S;
          pose proof (IHb s) as B;
          destruct (binary fuel s) as [s2 | e s2 |]
      end; simpl; try discriminate;
      intros R T; apply (IHl precedence s2 self');
      try exact R;
      try (eapply advanced_within; [|exact S]; exact W);
      apply (B s2 t); auto; rewrite Hk; discriminate.
  - intros self self' operator W Hlt Hi Hk. rewrite binary_eq.
    replace (current self >=? len_tokens self) with false by lia.
    unfold subscript. rewrite Hi.
    match goal with
    | |- and_then (parse_precedence ?f ?q ?s) _ = _ -> _ =>
        pose proof (IHp q s) as P;
        destruct (parse_precedence f q s) as [s3 | e s3 |]
    end; simpl; try discriminate.
    intros R T.
    assert (T3 : in_order s3).
    { apply P; [| reflexivity |].
      - unfold within, len_tokens, set_current in *.
        cbn [tokens current] in *. lia.
      - apply (in_order_consume self _ operator); try reflexivity; auto.
        unfold within in W. lia. }
    destruct (kind operator) eqn:Hko.
    + injection R as <-. apply in_order_emit; [discriminate | exact T3].
    + injection R as <-. apply in_order_emit; [discriminate | exact T3].
    + contradiction.
Qed.

(** X14.  The parser reorders operators only.  When parsing returns,
    whatever the tokens, the values pushed by the bytecode are, in the
    same order, the integers of the lexemes of the NUMBER tokens. *)
Theorem operands_keep_order (toks : list Token) (self : PrattParser) :
  parse toks = Returned self ->
  map Some (constants (bytecode self)) = literals toks.
Proof.
  intros R. destruct (parse_returns_at_end toks self R) as (Ht & Hc).
  destruct (methods_in_order (fuel_for (PrattParser_init toks)))
    as (Op & _ & _).
  assert (T : in_order self).
  { apply (Op 0 (PrattParser_init toks) self (init_within toks) R).
    reflexivity. }
  unfold in_order in T. rewrite Ht, Hc, Nat2Z.id, firstn_all in T. exact T.
Qed.

Lemma operands_keep_order_witness :
  parse [digit_token D1; plus_token; digit_token D2; star_token;
         digit_token D3]
  = Returned
      (mkParser
         [digit_token D1; plus_token; digit_token D2; star_token;
          digit_token D3] 5
         [ConstantInstruction 1; ConstantInstruction 2; ConstantInstruction 3;
          MultiplyInstruction; AddInstruction]
         [(0, 0); (0, 1); (1, 1); (1, 1); (1, 1); (2, 2); (2, 3); (3, 3);
          (3, 3); (3, 3); (4, 4); (4, 5)]) /\
  [Some 1; Some 2; Some 3]
  = literals [digit_token D1; plus_token; digit_token D2; star_token;
              digit_token D3].
Proof.
  split; [reflexivity|].
  apply (operands_keep_order
           [digit_token D1; plus_token; digit_token D2; star_token;
            digit_token D3]
           (mkParser
              [digit_token D1; plus_token; digit_token D2; star_token;
               digit_token D3] 5
              [ConstantInstruction 1; ConstantInstruction 2;
               ConstantInstruction 3; MultiplyInstruction; AddInstruction]
              [(0, 0); (0, 1); (1, 1); (1, 1); (1, 1); (2, 2); (2, 3); (3, 3);
               (3, 3); (3, 3); (4, 4); (4, 5)])).
  reflexivity.
Defined.
